(** * A monadic parser and calculator: shallow embedding of [calc.py]

    The Python module defines a parser type (a wrapped function from the
    input text to a value and the remaining text, failing by raising
    [ParserError]), its monadic operations, a generator-driven do-notation,
    the usual derived combinators and a small arithmetic grammar whose
    productions evaluate their operands on the fly.

    The embedding follows the module function by function.

    - A Python value is an element of [value]; a raised exception is an
      element of [exn]; running a parser yields an [outcome].
    - Python functions that recurse without a structural bound ([reduce],
      and the mutually recursive productions [expr], [term], [factor]) take
      a recursion budget.  A [Parser] is therefore a function of a budget
      and of the input.  Sequential composition shares the budget; every
      recursive call lowers it by one.  [OutOfFuel] is the outcome of a run
      that needs a deeper recursion than the budget allows; a run that gives
      [OutOfFuel] for every budget is a run that never returns.  The
      interpreter's own recursion limit is not part of the model: a budget
      may be as large as a run needs.
    - A generator function (the body of a [@do] parser) is an interaction
      tree over the event [Yield m], answered by the value sent back into the
      generator; [return] is the leaf of the tree and a [raise] in the body
      is the event [Throw].
    - Integers are unbounded ([Z]); floats are IEEE 754 binary64 numbers
      ([spec_float] at precision 53), with rounding to nearest even; a
      string is a sequence of 8-bit characters.
    - The interpreter is CPython 3.11 on a 64-bit platform: an index is a
      signed 64-bit integer, and an integer is converted from and to decimal
      text only up to 4300 digits.  Memory is unbounded. *)

From Stdlib Require Import String Ascii List ZArith Lia Bool Arith.
From Stdlib Require Import Floats.SpecFloat.
From ITree Require Import ITree.
Import ListNotations.

Local Open Scope string_scope.
Local Open Scope list_scope.

(** The type of Python's [str]. *)
Abbreviation str := String.string.

(** ** Values and exceptions *)

(** The four anonymous functions returned by the operator parsers. *)
Inductive lambda : Type :=
| Lam_add   (* lambda a, b: a + b *)
| Lam_sub   (* lambda a, b: a - b *)
| Lam_mul   (* lambda a, b: a * b *)
| Lam_div.  (* lambda a, b: a / b *)

#[warnings="-register-all"]
Inductive value : Type :=
| VNone
| VEllipsis
| VStr (s : str)
| VInt (z : Z)
| VFloat (f : spec_float)
| VList (l : list value)
| VLambda (f : lambda)
| VClass_ParserError                          (* the class object itself *)
| VInstance_ParserError (args : list value).  (* ParserError(a, b) as a value *)

(** The argument of a raised [ParserError]: a literal text, or the
    formatted text [f"unexpected {ch}"]. *)
Inductive message : Type :=
| Msg (s : str)
| Unexpected (ch : value).

Inductive exn : Type :=
| ParserError (m : message)
| SyntaxError
| TypeError
| ZeroDivisionError
| OverflowError
| OtherError (name : str).

(** [except ParserError] catches exactly these. *)
Definition is_ParserError (e : exn) : bool :=
  match e with
  | ParserError _ => true
  | _ => false
  end.

(** [x is ParserError] *)
Definition is_ParserError_class (x : value) : bool :=
  match x with
  | VClass_ParserError => true
  | _ => false
  end.

(** The result of evaluating a Python expression. *)
Inductive result (A : Type) : Type :=
| Val (a : A)
| Exc (e : exn).
Arguments Val {A} a.
Arguments Exc {A} e.

Definition result_bind {A B : Type} (r : result A) (k : A -> result B) : result B :=
  match r with
  | Val a => k a
  | Exc e => Exc e
  end.

(** ** Python numbers *)

Module Py.

Definition prec : Z := 53.
Definition emax : Z := 1024.

(** An integer as an exact, not yet rounded, binary number. *)
Definition exact (z : Z) : spec_float :=
  match z with
  | Z0 => S754_zero false
  | Zpos m => S754_finite false m 0
  | Zneg m => S754_finite true m 0
  end.

(** A float operation that overflows on integer operands raises. *)
Definition finite_or_overflow (f : spec_float) : result spec_float :=
  match f with
  | S754_infinity _ => Exc OverflowError
  | _ => Val f
  end.

(** [float(z)] as the mixed arithmetic performs it: correctly rounded, and
    [OverflowError] when the integer is too large. *)
Definition float_of_int (z : Z) : result spec_float :=
  finite_or_overflow (binary_normalize prec emax z 0 false).

Definition is_zero (f : spec_float) : bool :=
  match f with
  | S754_zero _ => true
  | _ => false
  end.

(** [a / b] on two integers: the correctly rounded quotient. *)
Definition int_truediv (a b : Z) : result spec_float :=
  if (b =? 0)%Z then Exc ZeroDivisionError
  else finite_or_overflow (SFdiv prec emax (exact a) (exact b)).

Definition float_truediv (a b : spec_float) : result spec_float :=
  if is_zero b then Exc ZeroDivisionError else Val (SFdiv prec emax a b).

(** The operands of a mixed operation, both as floats. *)
Definition coerce (a b : value) : option (result (spec_float * spec_float)) :=
  match a, b with
  | VFloat x, VFloat y => Some (Val (x, y))
  | VInt x, VFloat y => Some (result_bind (float_of_int x) (fun x' => Val (x', y)))
  | VFloat x, VInt y => Some (result_bind (float_of_int y) (fun y' => Val (x, y')))
  | _, _ => None
  end.

Definition float_op (op : spec_float -> spec_float -> result spec_float)
    (a b : value) : result value :=
  match coerce a b with
  | Some r => result_bind r (fun xy => result_bind (op (fst xy) (snd xy)) (fun f => Val (VFloat f)))
  | None => Exc TypeError
  end.

(** The largest index, [sys.maxsize]. *)
Definition index_max : Z := 2 ^ 63 - 1.

(** The count of a repetition, as an index: it must fit one, and a negative
    count is zero. *)
Definition repeat_count (n : Z) : result Z :=
  if (n <? - 2 ^ 63)%Z || (index_max <? n)%Z then Exc OverflowError
  else Val (Z.max n 0).

(** [s * n] on a sequence, [n] an index. *)
Fixpoint repeat_str (s : str) (n : nat) : str :=
  match n with
  | O => ""
  | S n' => (s ++ repeat_str s n')%string
  end.

Fixpoint repeat_list (l : list value) (n : nat) : list value :=
  match n with
  | O => []
  | S n' => l ++ repeat_list l n'
  end.

(** [a + b] *)
Definition add (a b : value) : result value :=
  match a, b with
  | VInt x, VInt y => Val (VInt (x + y))
  | VStr x, VStr y => Val (VStr (x ++ y)%string)
  | VList x, VList y => Val (VList (x ++ y))
  | _, _ => float_op (fun x y => Val (SFadd prec emax x y)) a b
  end.

(** [a - b] *)
Definition sub (a b : value) : result value :=
  match a, b with
  | VInt x, VInt y => Val (VInt (x - y))
  | _, _ => float_op (fun x y => Val (SFsub prec emax x y)) a b
  end.

(** [s * n] on a string: the count must fit an index
    ("cannot fit 'int' into an index-sized integer"), and so must the length
    of the result ("repeated string is too long"); an empty result needs no
    repetition. *)
Definition mul_str (s : str) (n : Z) : result value :=
  result_bind (repeat_count n) (fun k =>
    let length := (Z.of_nat (String.length s) * k)%Z in
    if (index_max <? length)%Z then Exc OverflowError
    else if (length =? 0)%Z then Val (VStr "")
    else Val (VStr (repeat_str s (Z.to_nat k)))).

(** [l * n] on a list: the same, but a result too long for an index is a
    [MemoryError]. *)
Definition mul_list (l : list value) (n : Z) : result value :=
  result_bind (repeat_count n) (fun k =>
    let length := (Z.of_nat (List.length l) * k)%Z in
    if (index_max <? length)%Z then Exc (OtherError "MemoryError")
    else if (length =? 0)%Z then Val (VList [])
    else Val (VList (repeat_list l (Z.to_nat k)))).

(** [a * b] *)
Definition mul (a b : value) : result value :=
  match a, b with
  | VInt x, VInt y => Val (VInt (x * y))
  | VStr s, VInt n | VInt n, VStr s => mul_str s n
  | VList l, VInt n | VInt n, VList l => mul_list l n
  | _, _ => float_op (fun x y => Val (SFmul prec emax x y)) a b
  end.

(** [a / b] *)
Definition truediv (a b : value) : result value :=
  match a, b with
  | VInt x, VInt y => result_bind (int_truediv x y) (fun f => Val (VFloat f))
  | _, _ => float_op float_truediv a b
  end.

Definition apply_lambda (f : lambda) (a b : value) : result value :=
  match f with
  | Lam_add => add a b
  | Lam_sub => sub a b
  | Lam_mul => mul a b
  | Lam_div => truediv a b
  end.

(** [op(a, b)] *)
Definition call2 (op a b : value) : result value :=
  match op with
  | VLambda f => apply_lambda f a b
  | VClass_ParserError => Val (VInstance_ParserError [a; b])
  | _ => Exc TypeError
  end.

(** *** Strings *)

(** [x in s] for two strings: [x] occurs in [s]. *)
Fixpoint contains (s x : str) : bool :=
  String.prefix x s ||
  match s with
  | "" => false
  | String _ s' => contains s' x
  end.

(** [lambda x: x in s], applied to any value.  Only a string can occur in a
    string; [sat] applies its predicate to what [pop] returned, which is a
    string of one character. *)
Definition is_in (s : str) (x : value) : bool :=
  match x with
  | VStr c => contains s c
  | _ => false
  end.

(** [lambda x: x == ch] for a string [ch]: a value that is not a string is
    never equal to one. *)
Definition equals (ch : str) (x : value) : bool :=
  match x with
  | VStr c => String.eqb c ch
  | _ => false
  end.

(** [sep.join(x)] with [sep = ""]: the elements must all be strings. *)
Fixpoint join_list (l : list value) : result str :=
  match l with
  | [] => Val ""
  | VStr s :: l' => result_bind (join_list l') (fun t => Val (s ++ t)%string)
  | _ :: _ => Exc TypeError
  end.

Definition join (x : value) : result str :=
  match x with
  | VList l => join_list l
  | VStr s => Val s
  | _ => Exc TypeError
  end.

(** *** [eval] on the text of a numeric literal

    [digits] hands [eval] a non-empty text over the characters
    [0123456789.].  On such a text Python's expression grammar leaves four
    cases: a decimal integer (a lone run of zeros, or no leading zero), a
    point float (one dot and at least one digit), the [Ellipsis] literal
    (exactly three dots) and a syntax error (everything else; an integer
    of more than 4300 digits is one).  Text with any other character is
    outside this model and is rejected too. *)

Definition is_digit (c : ascii) : bool :=
  (48 <=? nat_of_ascii c)%nat && (nat_of_ascii c <=? 57)%nat.

Definition is_dot (c : ascii) : bool := (nat_of_ascii c =? 46)%nat.

Definition digit_value (c : ascii) : Z := Z.of_nat (nat_of_ascii c - 48).

(** The integer written by a run of decimal digits. *)
Definition decimal (ds : list ascii) : Z :=
  fold_left (fun acc c => (10 * acc + digit_value c)%Z) ds 0%Z.

Definition count_dots (cs : list ascii) : nat :=
  List.length (filter is_dot cs).

(** A decimal integer literal may start with 0 only if it is all zeros. *)
Definition integer_literal_ok (ds : list ascii) : bool :=
  match ds with
  | [] => false
  | d :: _ => negb (is_dot d) && ((0 <? digit_value d)%Z || (decimal ds =? 0)%Z)
  end.

Fixpoint before_dot (cs : list ascii) : list ascii :=
  match cs with
  | [] => []
  | c :: cs' => if is_dot c then [] else c :: before_dot cs'
  end.

Fixpoint after_dot (cs : list ascii) : list ascii :=
  match cs with
  | [] => []
  | c :: cs' => if is_dot c then cs' else after_dot cs'
  end.

(** The float written [i.f]: the integer [if] over [10 ^ |f|], rounded once. *)
Definition float_literal (cs : list ascii) : spec_float :=
  let i := before_dot cs in
  let f := after_dot cs in
  SFdiv prec emax (exact (decimal (i ++ f))) (exact (10 ^ Z.of_nat (List.length f))).

(** The most digits of an integer that is read from or written as decimal
    text, [sys.int_info.default_max_str_digits]. *)
Definition max_str_digits : Z := 4300.

(** An integer literal is converted only if it is zero or has no more than
    that many digits. *)
Definition within_str_digits (ds : list ascii) : bool :=
  (decimal ds =? 0)%Z || (Z.of_nat (List.length ds) <=? max_str_digits)%Z.

Definition eval (text : str) : result value :=
  let cs := list_ascii_of_string text in
  if negb (forallb (fun c => is_digit c || is_dot c) cs) then Exc SyntaxError
  else
    match count_dots cs with
    | 0 => if integer_literal_ok cs && within_str_digits cs
           then Val (VInt (decimal cs)) else Exc SyntaxError
    | 1 => if (2 <=? List.length cs)%nat then Val (VFloat (float_literal cs)) else Exc SyntaxError
    | 3 => if (List.length cs =? 3)%nat then Val VEllipsis else Exc SyntaxError
    | _ => Exc SyntaxError
    end.

End Py.

(** ** The parser type *)

(** What [parse] does on an input: return a value and the remaining input,
    raise, or exceed the recursion budget. *)
Inductive outcome : Type :=
| Ok (v : value) (rest : str)
| Raise (e : exn)
| OutOfFuel.

(** [Parser(func)], read through [parse]: the budget, then the context. *)
Definition Parser : Type := nat -> str -> outcome.

(** [Parser()], whose [func] is [None]. *)
Definition Parser_None : Parser :=
  fun _ context => Ok VNone context.

(** [Parser.__or__]: only a [ParserError] of [self] starts [other], and
    [other] starts on the context [self] was given. *)
Definition __or__ (self other : Parser) : Parser :=
  fun fuel context =>
    match self fuel context with
    | Raise (ParserError _) => other fuel context
    | Ok v rest => Ok v rest
    | Raise e => Raise e
    | OutOfFuel => OutOfFuel
    end.

Infix "<|>" := __or__ (at level 50, left associativity).

(** [Parser.ret] *)
Definition ret (v : value) : Parser :=
  fun _ c => Ok v c.

(** [Parser.bind] *)
Definition bind (self : Parser) (f : value -> Parser) : Parser :=
  fun fuel context =>
    match self fuel context with
    | Ok a context' => f a fuel context'
    | Raise e => Raise e
    | OutOfFuel => OutOfFuel
    end.

(** [pick()]: the first character, the context unchanged. *)
Definition pick : Parser :=
  fun _ context =>
    match context with
    | "" => Raise (ParserError (Msg "unexpected EOF"))
    | String c _ => Ok (VStr (String c "")) context
    end.

(** [pop()]: the first character, and the context after it. *)
Definition pop : Parser :=
  fun _ context =>
    match context with
    | "" => Raise (ParserError (Msg "unexpected EOF"))
    | String c rest => Ok (VStr (String c "")) rest
    end.

(** ** Generators and the do-notation *)

(** What a generator does when it is resumed: yield a parser and wait for
    the parsed value, or raise.  Returning is the leaf of the tree. *)
Variant genE : Type -> Type :=
| Yield (m : Parser) : genE value
| Throw (e : exn) : genE Empty_set.

Definition Generator : Type := itree genE Parser.

(** [x = yield m] *)
Definition yield (m : Parser) : itree genE value :=
  ITree.trigger (Yield m).

(** [raise e] in the body of a generator. *)
Definition raise {A : Type} (e : exn) : itree genE A :=
  Vis (Throw e) (fun v : Empty_set => match v with end).

(** An expression of the body that may raise. *)
Definition lift {A : Type} (r : result A) : itree genE A :=
  match r with
  | Val a => Ret a
  | Exc e => raise e
  end.

Import ITreeNotations.
Local Open Scope itree_scope.

(** [reduce]: resume the generator; when it returns, the result is the
    returned parser; when it yields [m_a], the result is [m_a] bound to the
    reduction of the generator resumed with the parsed value.  An exception
    of the generator's body leaves [reduce] while the bound parser runs, so
    it is the outcome of that run.  The silent step is the jump back to the
    head of a [while] loop. *)
Fixpoint reduce (fuel : nat) (g : Generator) : Parser :=
  match fuel with
  | O => fun _ _ => OutOfFuel
  | S fuel' =>
      match observe g with
      | RetF p => p
      | TauF g' => reduce fuel' g'
      | VisF e k =>
          match e in genE X return (X -> Generator) -> Parser with
          | Yield m_a => fun k => bind m_a (fun a => reduce fuel' (k a))
          | Throw err => fun _ _ _ => Raise err
          end k
      end
  end.

(** [do]: every [parse] calls the generator function anew. *)
Definition do (f : unit -> Generator) : Parser :=
  fun fuel context => reduce fuel (f tt) fuel context.

(** ** Derived combinators *)

(** [sat(p)]: the character [pop] returns, if [p] holds of it. *)
Definition sat (p : value -> bool) : Parser :=
  do (fun _ =>
    ch <- yield pop ;;
    if p ch then Ret (ret ch)
    else raise (ParserError (Unexpected ch))).

Definition char (ch : str) : Parser :=
  sat (Py.equals ch).

(** [for ch in s: yield char(ch)], then [return Parser.ret(s)]. *)
Fixpoint string_body (chars s : str) : Generator :=
  match chars with
  | "" => Ret (ret (VStr s))
  | String ch chars' => yield (char (String ch "")) ;; string_body chars' s
  end.

Definition string (s : str) : Parser :=
  do (fun _ => string_body s s).

(** One turn of the [while True] loop of [many]. *)
Definition parse_many_step (p : Parser) (result : list value)
  : itree genE (list value + Parser) :=
  x <- yield (p <|> ret VClass_ParserError) ;;
  if is_ParserError_class x then Ret (inr (ret (VList result)))
  else Ret (inl (result ++ [x])).

(** [many(p)], the loop version: [result] starts empty. *)
Definition many (p : Parser) : Parser :=
  do (fun _ => ITree.iter (parse_many_step p) []).

(** [many1(p)]: [[x] + xs] needs [xs] to be a list. *)
Definition many1 (p : Parser) : Parser :=
  do (fun _ =>
    x <- yield p ;;
    xs <- yield (many p) ;;
    match xs with
    | VList l => Ret (ret (VList ([x] ++ l)))
    | _ => raise TypeError
    end).

(** The text [" \t\n\r"]. *)
Definition whitespace : str :=
  String " " (String "009" (String "010" (String "013" ""))).

Definition space : Parser :=
  fun fuel context => many (sat (Py.is_in whitespace)) fuel context.

(** [token(p)]: [p], then the whitespace after it. *)
Definition token (p : Parser) : Parser :=
  do (fun _ =>
    a <- yield p ;;
    yield space ;;
    Ret (ret a)).

Definition symb (s : str) : Parser :=
  token (string s).

(** [operator]: the call [op(n1, n2)] may raise. *)
Definition operator (p_op p_n1 p_n2 : Parser) : Parser :=
  do (fun _ =>
    n1 <- yield p_n1 ;;
    op <- yield p_op ;;
    n2 <- yield p_n2 ;;
    r <- lift (Py.call2 op n1 n2) ;;
    Ret (ret r)).

(** ** The grammar *)

(** [digits]: the characters [token(many1(one))] collected are joined and
    handed to [eval]; what [eval] raises leaves [parse] as it is. *)
Definition digits : Parser :=
  fun fuel context =>
    let one := sat (Py.is_in "1234567890.") in
    match token (many1 one) fuel context with
    | Ok x context' =>
        match result_bind (Py.join x) Py.eval with
        | Val v => Ok v context'
        | Exc e => Raise e
        end
    | Raise e => Raise e
    | OutOfFuel => OutOfFuel
    end.

Definition addop (pn1 pn2 : Parser) : Parser :=
  let plus := do (fun _ => yield (symb "+") ;; Ret (ret (VLambda Lam_add))) in
  let minus := do (fun _ => yield (symb "-") ;; Ret (ret (VLambda Lam_sub))) in
  operator (plus <|> minus) pn1 pn2.

Definition mulop (pn1 pn2 : Parser) : Parser :=
  let times := do (fun _ => yield (symb "*") ;; Ret (ret (VLambda Lam_mul))) in
  let divide := do (fun _ => yield (symb "/") ;; Ret (ret (VLambda Lam_div))) in
  operator (times <|> divide) pn1 pn2.

(** The generator inside [factor]. *)
Definition parse_parenthesis (expr : Parser) : Parser :=
  do (fun _ =>
    yield (symb "(") ;;
    n <- yield expr ;;
    yield (symb ")") ;;
    Ret (ret n)).

(** The three productions call each other through the module's global
    names. *)
Inductive production : Type := Expr | Term | Factor.

(** A call of a production costs one unit of budget, and its body runs on
    what is left.  The body names the productions as they are with that
    remaining budget: the combinators hand every parser they run the budget
    they were given themselves, so this is the budget the productions are
    called with (lemmas [expr_unfold], [term_unfold], [factor_unfold]). *)

Fixpoint parse_production (fuel : nat) (which : production) (context : str) : outcome :=
  match fuel with
  | O => OutOfFuel
  | S fuel' =>
      let expr : Parser := fun _ => parse_production fuel' Expr in
      let term : Parser := fun _ => parse_production fuel' Term in
      let factor : Parser := fun _ => parse_production fuel' Factor in
      match which with
      | Expr => (addop term expr <|> term) fuel' context
      | Term => (mulop factor term <|> factor) fuel' context
      | Factor => (digits <|> parse_parenthesis expr) fuel' context
      end
  end.

Definition expr : Parser := fun fuel => parse_production fuel Expr.
Definition term : Parser := fun fuel => parse_production fuel Term.
Definition factor : Parser := fun fuel => parse_production fuel Factor.

(** ** What a run returns *)

(** [parse] returns [o] on [context]: every budget from some depth on gives
    [o], and [o] is an outcome of the Python program. *)
Definition returns (p : Parser) (context : str) (o : outcome) : Prop :=
  o <> OutOfFuel /\ exists depth, forall fuel, depth <= fuel -> p fuel context = o.

(** The remaining input is what is left of the context. *)
Definition suffix (rest context : str) : Prop :=
  exists consumed, context = (consumed ++ rest)%string.

(** A parser that only ever returns a suffix of its context. *)
Definition keeps_suffix (p : Parser) : Prop :=
  forall fuel context v rest, p fuel context = Ok v rest -> suffix rest context.

(** A parser whose every success consumes at least one character. *)
Definition consumes (p : Parser) : Prop :=
  forall fuel context v rest,
    p fuel context = Ok v rest -> String.length rest < String.length context.

(** [q] does with a larger budget whatever [p] does with a smaller one. *)
Definition refines (p q : Parser) : Prop :=
  forall n m context, n <= m -> p n context <> OutOfFuel -> q m context = p n context.

(** A parser whose outcome, once it has one, does not depend on the budget. *)
Definition monotone (p : Parser) : Prop := refines p p.

(** Two parsers that do the same with the budget [m]. *)
Definition agree_at (m : nat) (p q : Parser) : Prop :=
  forall context, p m context = q m context.

(** The parser that returns or raises what an expression evaluated to. *)
Definition of_result (r : result value) : Parser :=
  fun _ context =>
    match r with
    | Val v => Ok v context
    | Exc e => Raise e
    end.

(** The successive successes of [p] from [context], none of them the
    [ParserError] class: their values, and the input they leave. *)
Inductive iterates (p : Parser) : str -> list value -> str -> Prop :=
| iterates_nil context : iterates p context [] context
| iterates_cons context v context' vs rest :
    returns p context (Ok v context') ->
    is_ParserError_class v = false ->
    iterates p context' vs rest ->
    iterates p context (v :: vs) rest.

(** The parsers built from the combinators of the module. *)
Inductive built : Parser -> Prop :=
| built_None : built Parser_None
| built_ret v : built (ret v)
| built_bind p f : built p -> (forall a, built (f a)) -> built (bind p f)
| built_or p q : built p -> built q -> built (p <|> q)
| built_pick : built pick
| built_pop : built pop
| built_sat pr : built (sat pr)
| built_char ch : built (char ch)
| built_string s : built (string s)
| built_many p : built p -> built (many p)
| built_many1 p : built p -> built (many1 p)
| built_space : built space
| built_token p : built p -> built (token p)
| built_symb s : built (symb s)
| built_operator p_op p_n1 p_n2 :
    built p_op -> built p_n1 -> built p_n2 -> built (operator p_op p_n1 p_n2)
| built_addop pn1 pn2 : built pn1 -> built pn2 -> built (addop pn1 pn2)
| built_mulop pn1 pn2 : built pn1 -> built pn2 -> built (mulop pn1 pn2)
| built_digits : built digits
| built_factor : built factor
| built_term : built term
| built_expr : built expr.

(** [parse] returns on [context]. *)
Definition halts (p : Parser) (context : str) : Prop :=
  exists o, returns p context o.

(** ** The do-notation written out *)

(** The parser that raises [e]. *)
Definition failing (e : exn) : Parser := of_result (Exc e).

(** What [string] yields: one [char] after the other, then the text. *)
Fixpoint string_chars (chars s : str) : Parser :=
  match chars with
  | "" => ret (VStr s)
  | String ch chars' => bind (char (String ch "")) (fun _ => string_chars chars' s)
  end%string.

(** ** Values and parsers the statements below use *)

(** The float 25.0. *)
Definition float_25 : spec_float := S754_finite false 7036874417766400 (-48).

(** The float nearest to 2/5. *)
Definition float_0_4 : spec_float := S754_finite false 7205759403792794 (-54).

(** The float 1.0. *)
Definition float_1 : spec_float := S754_finite false 4503599627370496 (-52).

(** A parser that consumes one character and returns the class
    [ParserError]. *)
Definition pop_class : Parser :=
  bind pop (fun _ => ret VClass_ParserError).

(** A parser that consumes one character and returns it, except that it
    returns the class [ParserError] for an [x]. *)
Definition pop_until_x : Parser :=
  bind pop (fun ch => if Py.equals "x" ch then ret VClass_ParserError else ret ch).

(** ** Texts and their parts *)

(** The characters of a text, each a string of one character: what the
    successive [pop]s return. *)
Fixpoint chars_of (s : str) : list value :=
  match s with
  | "" => []
  | String c s' => VStr (String c "") :: chars_of s'
  end%string.

(** The longest prefix of a text whose characters satisfy [pr]. *)
Fixpoint prefix_while (pr : value -> bool) (s : str) : str :=
  match s with
  | "" => ""
  | String c s' => if pr (VStr (String c "")) then String c (prefix_while pr s') else ""
  end%string.

(** The text after that prefix. *)
Fixpoint drop_while (pr : value -> bool) (s : str) : str :=
  match s with
  | "" => ""
  | String c s' => if pr (VStr (String c "")) then drop_while pr s' else s
  end%string.

(** The first character of a text satisfies [pr]. *)
Definition starts_with (pr : value -> bool) (s : str) : bool :=
  match s with
  | "" => false
  | String c _ => pr (VStr (String c ""))
  end%string.

(** [lambda x: x in " \t\n\r"] *)
Definition is_whitespace : value -> bool := Py.is_in whitespace.

(** [lambda z: z in "1234567890."] *)
Definition is_digit_or_dot : value -> bool := Py.is_in "1234567890.".

(** Matching [chars] against the front of a text: what is left, or why not. *)
Fixpoint match_front (chars context : str) : str + message :=
  match chars with
  | "" => inl context
  | String ch chars' =>
      match context with
      | "" => inr (Msg "unexpected EOF")
      | String c context' =>
          if Ascii.eqb c ch then match_front chars' context'
          else inr (Unexpected (VStr (String c "")))
      end
  end%string.

(** The values of arithmetic: [int], [float] and, since [eval] reads it,
    [Ellipsis]. *)
Definition is_number (v : value) : bool :=
  match v with
  | VInt _ | VFloat _ | VEllipsis => true
  | _ => false
  end.

(** ** Binary operators *)

(** The four operator characters and the functions they stand for. *)
Definition operator_function (c : ascii) : option lambda :=
  if Ascii.eqb c "+" then Some Lam_add
  else if Ascii.eqb c "-" then Some Lam_sub
  else if Ascii.eqb c "*" then Some Lam_mul
  else if Ascii.eqb c "/" then Some Lam_div
  else None.

(** The builder that reads the operator of [f]. *)
Definition builder_of (f : lambda) : Parser -> Parser -> Parser :=
  match f with
  | Lam_add | Lam_sub => addop
  | Lam_mul | Lam_div => mulop
  end.

(** ** The read-eval-print loop *)

(** What [main] writes to the output. *)
Inductive printed : Type :=
| Prompt                           (* input("> ") *)
| Printed_value (v : value)        (* print(value) *)
| Printed_extra_input (ctx : str)  (* print("Extra input at: ", ctx) *)
| Printed_exception (e : exn).     (* print("exception:", e) *)

(** How [main] ends. *)
Inductive ending : Type :=
| Break             (* the empty line *)
| Raised_EOFError   (* [input] at the end of the input, outside the [try] *)
| Ran_out_of_fuel.

(** [str(v)], which [print(v)] calls first, raises [ValueError] on an
    integer of more than 4300 digits, wherever it stands in [v]. *)
Fixpoint printable (v : value) : bool :=
  match v with
  | VInt z => (Z.abs z <? 10 ^ Py.max_str_digits)%Z
  | VList l => forallb printable l
  | VInstance_ParserError args => forallb printable args
  | _ => true
  end.

(** The body of the [try] and its handler.  [print(value)] stands inside
    the [try]: when it raises, the handler prints that exception instead.
    Every exception of the model is an [Exception]. *)
Definition answer (o : outcome) : option printed :=
  match o with
  | Ok value ctx =>
      Some (if String.eqb ctx "" then
              if printable value then Printed_value value
              else Printed_exception (OtherError "ValueError")
            else Printed_extra_input ctx)
  | Raise e => Some (Printed_exception e)
  | OutOfFuel => None
  end.

(** [main], on the lines [input] will return one after the other. *)
Fixpoint main (fuel : nat) (stdin : list str) : list printed * ending :=
  match stdin with
  | [] => ([Prompt], Raised_EOFError)
  | line :: stdin' =>
      if String.eqb line "" then ([Prompt], Break)
      else
        match answer (expr fuel line) with
        | None => ([Prompt], Ran_out_of_fuel)
        | Some out =>
            let (outs, e) := main fuel stdin' in
            (Prompt :: out :: outs, e)
        end
  end.

(** The lines before the first empty one. *)
Fixpoint lines_read (stdin : list str) : list str :=
  match stdin with
  | [] => []
  | line :: stdin' => if String.eqb line "" then [] else line :: lines_read stdin'
  end.

(** [main] ends at the first empty line, or with the end of the input. *)
Fixpoint ending_of (stdin : list str) : ending :=
  match stdin with
  | [] => Raised_EOFError
  | line :: stdin' => if String.eqb line "" then Break else ending_of stdin'
  end.

(** A prompt before every answer, and one more before [main] ends. *)
Fixpoint with_prompts (answers : list printed) : list printed :=
  match answers with
  | [] => [Prompt]
  | a :: answers' => Prompt :: a :: with_prompts answers'
  end.

(** What [main] prints for a line, by what [expr] returns on it. *)
Inductive reply (line : str) : printed -> Prop :=
| reply_value v :
    returns expr line (Ok v "") -> printable v = true ->
    reply line (Printed_value v)
| reply_unprintable v :
    returns expr line (Ok v "") -> printable v = false ->
    reply line (Printed_exception (OtherError "ValueError"))
| reply_extra_input v ctx :
    returns expr line (Ok v ctx) -> ctx <> ""%string ->
    reply line (Printed_extra_input ctx)
| reply_exception e :
    returns expr line (Raise e) -> reply line (Printed_exception e).

(** ** Relating generators *)

Section GenRel.

Variable R : Parser -> Parser -> Prop.

(** One resumption of two generators: they return related parsers, or
    yield related parsers and go on alike, or raise the same. *)
Inductive gen_relF (later : Generator -> Generator -> Prop)
  : itree' genE Parser -> itree' genE Parser -> Prop :=
| rel_return p p' : R p p' -> gen_relF later (RetF p) (RetF p')
| rel_jump g g' : later g g' -> gen_relF later (TauF g) (TauF g')
| rel_yield m m' k k' :
    R m m' -> (forall a, later (k a) (k' a)) ->
    gen_relF later (VisF (Yield m) k) (VisF (Yield m') k')
| rel_throw e k k' : gen_relF later (VisF (Throw e) k) (VisF (Throw e) k').

(** Related for the first [n] resumptions. *)
Fixpoint gen_rel (n : nat) (g g' : Generator) : Prop :=
  match n with
  | O => True
  | S n' => gen_relF (gen_rel n') (observe g) (observe g')
  end.

(** What [R] must respect for every combinator of the module to respect it. *)
Record compatible : Prop := {
  compat_of_result : forall r, R (of_result r) (of_result r);
  compat_stuck : R (fun _ _ => OutOfFuel) (fun _ _ => OutOfFuel);
  compat_pop : R pop pop;
  compat_pick : R pick pick;
  compat_bind : forall p p' f f',
    R p p' -> (forall a, R (f a) (f' a)) -> R (bind p f) (bind p' f');
  compat_or : forall p p' q q', R p p' -> R q q' -> R (p <|> q) (p' <|> q');
  compat_ext : forall p p' q q',
    (forall n c, p n c = p' n c) -> (forall n c, q n c = q' n c) ->
    R p q -> R p' q';
  compat_do : forall f f',
    (forall n, gen_rel n (f tt) (f' tt)) -> R (do f) (do f')
}.

End GenRel.

Arguments rel_return {R later}.
Arguments rel_jump {R later}.
Arguments rel_yield {R later}.
Arguments rel_throw {R later}.

(** * Properties *)

(** ** [reduce] respects what [bind] respects *)

Section ReduceRel.

Variable R : Parser -> Parser -> Prop.
Hypothesis R_stuck : R (fun _ _ => OutOfFuel) (fun _ _ => OutOfFuel).
Hypothesis R_raise : forall e, R (fun _ _ => Raise e) (fun _ _ => Raise e).
Hypothesis R_bind : forall p p' f f',
  R p p' -> (forall a, R (f a) (f' a)) -> R (bind p f) (bind p' f').

Lemma reduce_rel a : forall g g', gen_rel R a g g' -> R (reduce a g) (reduce a g').
Proof.
  induction a as [|a IH]; intros g g' H; simpl in *.
  - exact R_stuck.
  - remember (observe g) as og. remember (observe g') as og'.
    destruct H as [p p' Hp | t t' Ht | m m' k k' Hm Hk | e k k'].
    + exact Hp.
    + apply IH, Ht.
    + apply R_bind; [exact Hm|]. intros x. apply IH, Hk.
    + apply R_raise.
Qed.

End ReduceRel.

(** ** Outcomes *)

Lemma returns_functional p context o o' :
  returns p context o -> returns p context o' -> o = o'.
Proof.
  intros [_ [n Hn]] [_ [m Hm]].
  rewrite <- (Hn (Nat.max n m)) by lia. apply Hm. lia.
Qed.

Lemma returns_monotone p fuel context o :
  monotone p -> p fuel context = o -> o <> OutOfFuel -> returns p context o.
Proof.
  intros Hp H Ho. split; [exact Ho|]. exists fuel. intros m Hm.
  rewrite <- H. apply Hp; [exact Hm | congruence].
Qed.

Lemma suffix_refl s : suffix s s.
Proof. exists ""%string. reflexivity. Qed.

Lemma append_assoc (a b c : str) : ((a ++ b) ++ c = a ++ (b ++ c))%string.
Proof. induction a as [|x a IH]; simpl; [reflexivity | now rewrite IH]. Qed.

Lemma append_length (a b : str) :
  String.length (a ++ b)%string = String.length a + String.length b.
Proof. induction a as [|x a IH]; simpl; [reflexivity | now rewrite IH]. Qed.

Lemma suffix_trans a b c : suffix a b -> suffix b c -> suffix a c.
Proof.
  intros [x ->] [y ->]. exists (y ++ x)%string. symmetry. apply append_assoc.
Qed.

Lemma suffix_length rest context :
  suffix rest context -> String.length rest <= String.length context.
Proof. intros [x ->]. rewrite append_length. lia. Qed.

(** ** The budget only matters when it runs out *)

Lemma reduce_fuel_monotone a : forall b g n c,
  a <= b -> reduce a g n c <> OutOfFuel -> reduce b g n c = reduce a g n c.
Proof.
  induction a as [|a IH]; intros b g n c Hab H; simpl in *.
  - congruence.
  - destruct b as [|b]; [lia|]. simpl.
    destruct (observe g) as [p | t | X e k]; [reflexivity | apply IH; [lia | exact H] |].
    destruct e as [m | e]; [|reflexivity].
    unfold bind in *. destruct (m n c) as [x c' | e |]; try reflexivity.
    apply IH; [lia | exact H].
Qed.

Lemma refines_compatible : compatible refines.
Proof.
  assert (Hbind : forall p p' f f',
    refines p p' -> (forall a, refines (f a) (f' a)) -> refines (bind p f) (bind p' f')).
  { intros p p' f f' Hp Hf n m c Hnm H. unfold bind in *.
    destruct (p n c) as [x c' | e |] eqn:E; [| |congruence].
    - rewrite (Hp n m c Hnm) by congruence. rewrite E. apply Hf; assumption.
    - rewrite (Hp n m c Hnm) by congruence. rewrite E. reflexivity. }
  split.
  - intros r n m c _ _. reflexivity.
  - intros n m c _ H. congruence.
  - intros n m c _ _. reflexivity.
  - intros n m c _ _. reflexivity.
  - exact Hbind.
  - intros p p' q q' Hp Hq n m c Hnm H. unfold __or__ in *.
    destruct (p n c) as [x c' | e |] eqn:E; [| |congruence].
    + rewrite (Hp n m c Hnm) by congruence. rewrite E. reflexivity.
    + rewrite (Hp n m c Hnm) by congruence. rewrite E.
      destruct e; try reflexivity. apply Hq; assumption.
  - intros p p' q q' Hp Hq H n m c Hnm Hne.
    rewrite <- Hp, <- Hq. apply H; [exact Hnm | now rewrite Hp].
  - intros f f' H n m c Hnm Hne. unfold do in *.
    assert (Hr : refines (reduce n (f tt)) (reduce n (f' tt))).
    { apply reduce_rel; [ intros ? ? ? _ ?; congruence
                        | intros ? ? ? ? _ _; reflexivity
                        | exact Hbind | apply H ]. }
    rewrite <- (Hr n m c Hnm Hne).
    apply reduce_fuel_monotone; [exact Hnm|]. rewrite (Hr n m c Hnm Hne). exact Hne.
Qed.

(** [keeps_suffix] as a relation that ignores its second parser. *)
Lemma keeps_suffix_compatible : compatible (fun p _ => keeps_suffix p).
Proof.
  assert (Hbind : forall (p p' : Parser) (f f' : value -> Parser),
    keeps_suffix p -> (forall a, keeps_suffix (f a)) -> keeps_suffix (bind p f)).
  { intros p _ f _ Hp Hf n c v rest H. unfold bind in H.
    destruct (p n c) as [x c' | e |] eqn:E; try discriminate.
    apply suffix_trans with c'; [eapply Hf, H | eapply Hp, E]. }
  split.
  - intros [v|e] n c v' rest H; simpl in H; [|discriminate].
    injection H as _ <-. apply suffix_refl.
  - intros n c v rest H. discriminate.
  - intros n [|a c] v rest H; simpl in H; [discriminate|].
    injection H as _ <-. exists (String a ""). reflexivity.
  - intros n [|a c] v rest H; simpl in H; [discriminate|].
    injection H as _ <-. apply suffix_refl.
  - exact Hbind.
  - intros p _ q _ Hp Hq n c v rest H. unfold __or__ in H.
    destruct (p n c) as [x c' | e |] eqn:E; try discriminate.
    + injection H as _ <-. eapply Hp, E.
    + destruct e; try discriminate. eapply Hq, H.
  - intros p p' q q' Hp _ H n c v rest E. rewrite <- Hp in E. eapply H, E.
  - intros f f' H n c v rest E. unfold do in E.
    refine (reduce_rel (fun p _ => keeps_suffix p) _ _ Hbind n (f tt) (f' tt) (H n) n c v rest E).
    + intros ? ? ? ? ?; discriminate.
    + intros ? ? ? ? ? ?; discriminate.
Qed.

Lemma agree_at_compatible m : compatible (agree_at m).
Proof.
  assert (Hbind : forall p p' f f',
    agree_at m p p' -> (forall a, agree_at m (f a) (f' a)) ->
    agree_at m (bind p f) (bind p' f')).
  { intros p p' f f' Hp Hf c. unfold bind. rewrite (Hp c).
    destruct (p' m c); try reflexivity. apply Hf. }
  split; try (intros; intro; reflexivity).
  - exact Hbind.
  - intros p p' q q' Hp Hq c. unfold __or__. rewrite (Hp c).
    destruct (p' m c) as [| e |]; try reflexivity. destruct e; try reflexivity. apply Hq.
  - intros p p' q q' Hp Hq H c. rewrite <- Hp, <- Hq. apply H.
  - intros f f' H c. unfold do.
    apply (reduce_rel (agree_at m)); try (intros; intro; reflexivity); [exact Hbind | apply H].
Qed.

(** ** Every combinator respects a compatible relation *)

Lemma observe_subst_ret {A : Type} (k : A -> Generator) (a : A) :
  observe (ITree.subst k (Ret a)) = observe (k a).
Proof. reflexivity. Qed.

Lemma observe_subst_subst_ret {A B : Type} (k : A -> itree genE B)
    (h : B -> Generator) (a : A) :
  observe (ITree.subst h (ITree.subst k (Ret a))) = observe (ITree.subst h (k a)).
Proof. reflexivity. Qed.

(** Resume both generators once more. *)
Ltac resumed :=
  match goal with
  | |- gen_rel _ ?n _ _ =>
      destruct n;
        [exact I | cbn [gen_rel]; rewrite ?observe_subst_subst_ret, ?observe_subst_ret]
  end.

Ltac resume := resumed; cbn; constructor; intros.

Section Combinators.

Variable R : Parser -> Parser -> Prop.
Hypothesis HR : compatible R.

Lemma ret_compat v : R (ret v) (ret v).
Proof. exact (compat_of_result R HR (Val v)). Qed.

Lemma reduce_compat a g g' : gen_rel R a g g' -> R (reduce a g) (reduce a g').
Proof.
  apply reduce_rel.
  - apply (compat_stuck R HR).
  - intros e. apply (compat_of_result R HR (Exc e)).
  - apply (compat_bind R HR).
Qed.

Lemma sat_compat pr : R (sat pr) (sat pr).
Proof.
  apply (compat_do R HR). intros n.
  resume; [apply (compat_pop R HR)|].
  resumed. destruct (pr a); cbn; constructor. apply ret_compat.
Qed.

Lemma char_compat ch : R (char ch) (char ch).
Proof. apply sat_compat. Qed.

Lemma string_body_compat s : forall chars n,
  gen_rel R n (string_body chars s) (string_body chars s).
Proof.
  induction chars as [|ch chars IH]; intros n.
  - resume. apply ret_compat.
  - resume; [apply char_compat|].
    resumed. apply (IH (S n)).
Qed.

Lemma string_compat s : R (string s) (string s).
Proof. apply (compat_do R HR). intros n. apply string_body_compat. Qed.

Lemma many_compat p p' : R p p' -> R (many p) (many p').
Proof.
  intros Hp. apply (compat_do R HR). intros n.
  generalize (@nil value) as result.
  induction n as [n IH] using lt_wf_ind. intros result.
  resume; [apply (compat_or R HR); [exact Hp | apply ret_compat]|].
  resumed. destruct (is_ParserError_class a); rewrite observe_subst_ret; cbn; constructor.
  - apply ret_compat.
  - apply IH. lia.
Qed.

Lemma many1_compat p p' : R p p' -> R (many1 p) (many1 p').
Proof.
  intros Hp. apply (compat_do R HR). intros n.
  resume; [exact Hp|].
  resume; [apply many_compat, Hp|].
  resumed. destruct a0; cbn; constructor. apply ret_compat.
Qed.

Lemma space_compat : R space space.
Proof.
  apply (compat_ext R HR) with (p := many (sat (Py.is_in whitespace)))
                                (q := many (sat (Py.is_in whitespace)));
    try reflexivity.
  apply many_compat, sat_compat.
Qed.

Lemma token_compat p p' : R p p' -> R (token p) (token p').
Proof.
  intros Hp. apply (compat_do R HR). intros n.
  resume; [exact Hp|].
  resume; [apply space_compat|].
  resume. apply ret_compat.
Qed.

Lemma symb_compat s : R (symb s) (symb s).
Proof. apply token_compat, string_compat. Qed.

Lemma operator_compat p_op p_op' p_n1 p_n1' p_n2 p_n2' :
  R p_op p_op' -> R p_n1 p_n1' -> R p_n2 p_n2' ->
  R (operator p_op p_n1 p_n2) (operator p_op' p_n1' p_n2').
Proof.
  intros Hop H1 H2. apply (compat_do R HR). intros n.
  resume; [exact H1|].
  resume; [exact Hop|].
  resume; [exact H2|].
  resumed. destruct (Py.call2 a0 a a1); cbn; constructor. apply ret_compat.
Qed.

Lemma operator_symbol_compat s f :
  R (do (fun _ => yield (symb s) ;; Ret (ret (VLambda f))))
    (do (fun _ => yield (symb s) ;; Ret (ret (VLambda f)))).
Proof.
  apply (compat_do R HR). intros n.
  resume; [apply symb_compat|]. resume. apply ret_compat.
Qed.

Lemma addop_compat pn1 pn1' pn2 pn2' :
  R pn1 pn1' -> R pn2 pn2' -> R (addop pn1 pn2) (addop pn1' pn2').
Proof.
  intros H1 H2. apply operator_compat; [|exact H1|exact H2].
  apply (compat_or R HR); apply operator_symbol_compat.
Qed.

Lemma mulop_compat pn1 pn1' pn2 pn2' :
  R pn1 pn1' -> R pn2 pn2' -> R (mulop pn1 pn2) (mulop pn1' pn2').
Proof.
  intros H1 H2. apply operator_compat; [|exact H1|exact H2].
  apply (compat_or R HR); apply operator_symbol_compat.
Qed.

Lemma parse_parenthesis_compat e e' :
  R e e' -> R (parse_parenthesis e) (parse_parenthesis e').
Proof.
  intros He. apply (compat_do R HR). intros n.
  resume; [apply symb_compat|].
  resume; [exact He|].
  resume; [apply symb_compat|].
  resume. apply ret_compat.
Qed.

Lemma digits_compat : R digits digits.
Proof.
  set (literal := fun x : value => of_result (result_bind (Py.join x) Py.eval)).
  apply (compat_ext R HR)
    with (p := bind (token (many1 (sat (Py.is_in "1234567890.")))) literal)
         (q := bind (token (many1 (sat (Py.is_in "1234567890.")))) literal).
  - intros n c. unfold digits, bind, literal, of_result.
    destruct (token _ n c); reflexivity.
  - intros n c. unfold digits, bind, literal, of_result.
    destruct (token _ n c); reflexivity.
  - apply (compat_bind R HR).
    + apply token_compat, many1_compat, sat_compat.
    + intros a. apply (compat_of_result R HR).
Qed.

End Combinators.

(** ** The productions *)

Lemma parse_production_S fuel which context :
  parse_production (S fuel) which context =
  let expr : Parser := fun _ => parse_production fuel Expr in
  let term : Parser := fun _ => parse_production fuel Term in
  let factor : Parser := fun _ => parse_production fuel Factor in
  match which with
  | Expr => (addop term expr <|> term) fuel context
  | Term => (mulop factor term <|> factor) fuel context
  | Factor => (digits <|> parse_parenthesis expr) fuel context
  end.
Proof. reflexivity. Qed.

(** A production called with a budget is a parser that respects whatever
    the combinators respect. *)
Lemma parse_production_compat (R : Parser -> Parser -> Prop) (HR : compatible R)
    (n m : nat) :
  (forall which, R (fun _ => parse_production n which) (fun _ => parse_production m which)) ->
  forall which,
    R (match which with
       | Expr => addop (fun _ => parse_production n Term) (fun _ => parse_production n Expr)
                 <|> (fun _ => parse_production n Term)
       | Term => mulop (fun _ => parse_production n Factor) (fun _ => parse_production n Term)
                 <|> (fun _ => parse_production n Factor)
       | Factor => digits <|> parse_parenthesis (fun _ => parse_production n Expr)
       end)
      (match which with
       | Expr => addop (fun _ => parse_production m Term) (fun _ => parse_production m Expr)
                 <|> (fun _ => parse_production m Term)
       | Term => mulop (fun _ => parse_production m Factor) (fun _ => parse_production m Term)
                 <|> (fun _ => parse_production m Factor)
       | Factor => digits <|> parse_parenthesis (fun _ => parse_production m Expr)
       end).
Proof.
  intros H [| |]; apply (compat_or R HR).
  - apply (addop_compat R HR); apply H.
  - apply H.
  - apply (mulop_compat R HR); apply H.
  - apply H.
  - apply (digits_compat R HR).
  - apply (parse_parenthesis_compat R HR), H.
Qed.

Lemma parse_production_refines n : forall m which,
  n <= m ->
  refines (fun _ => parse_production n which) (fun _ => parse_production m which).
Proof.
  induction n as [|n IH]; intros m which Hnm k k' c Hk H.
  - simpl in H. congruence.
  - destruct m as [|m]; [lia|].
    assert (Hm : n <= m) by lia.
    pose proof (parse_production_compat refines refines_compatible n m
                  (fun w => IH m w Hm) which n m c Hm) as X.
    rewrite !parse_production_S in *.
    destruct which; apply X; exact H.
Qed.

Lemma parse_production_monotone which :
  monotone (fun fuel => parse_production fuel which).
Proof.
  intros n m c Hnm H. exact (parse_production_refines n m which Hnm 0 0 c (le_n 0) H).
Qed.

Lemma expr_monotone : monotone expr.
Proof. exact (parse_production_monotone Expr). Qed.

Lemma term_monotone : monotone term.
Proof. exact (parse_production_monotone Term). Qed.

Lemma factor_monotone : monotone factor.
Proof. exact (parse_production_monotone Factor). Qed.

Lemma parse_production_keeps_suffix n : forall which,
  keeps_suffix (fun _ => parse_production n which).
Proof.
  induction n as [|n IH]; intros which k c v rest H.
  - discriminate.
  - rewrite parse_production_S in H.
    pose proof (parse_production_compat (fun p _ => keeps_suffix p)
                  keeps_suffix_compatible n n IH which n c v rest) as X.
    destruct which; apply X; exact H.
Qed.

(** The productions satisfy the equations the module defines them by: a
    call costs one unit of budget, and the names in the body are the
    productions themselves. *)
Lemma expr_unfold fuel context :
  expr (S fuel) context = (addop term expr <|> term) fuel context.
Proof.
  unfold expr at 1. rewrite parse_production_S.
  apply (compat_or _ (agree_at_compatible fuel));
    [apply (addop_compat _ (agree_at_compatible fuel))|]; intro; reflexivity.
Qed.

Lemma term_unfold fuel context :
  term (S fuel) context = (mulop factor term <|> factor) fuel context.
Proof.
  unfold term at 1. rewrite parse_production_S.
  apply (compat_or _ (agree_at_compatible fuel));
    [apply (mulop_compat _ (agree_at_compatible fuel))|]; intro; reflexivity.
Qed.

Lemma factor_unfold fuel context :
  factor (S fuel) context = (digits <|> parse_parenthesis expr) fuel context.
Proof.
  unfold factor at 1. rewrite parse_production_S.
  apply (compat_or _ (agree_at_compatible fuel));
    [|apply (parse_parenthesis_compat _ (agree_at_compatible fuel))]; intro; reflexivity.
Qed.

(** ** Running the combinators *)

Lemma bind_Ok p f fuel context v rest :
  bind p f fuel context = Ok v rest ->
  exists a context', p fuel context = Ok a context' /\ f a fuel context' = Ok v rest.
Proof.
  unfold bind. destruct (p fuel context) as [a c | e |]; try discriminate.
  intros H. exists a, c. split; [reflexivity | exact H].
Qed.

Lemma reduce_observe a (g g' : Generator) :
  observe g = observe g' -> reduce a g = reduce a g'.
Proof. intros H. destruct a; simpl; [reflexivity | now rewrite H]. Qed.

(** The first [yield] of a generator, seen from [reduce]. *)
Lemma reduce_yield a m (k : value -> Generator) fuel context :
  reduce (S a) (x <- yield m ;; k x) fuel context =
  bind m (fun x => reduce a (k x)) fuel context.
Proof.
  simpl. unfold bind. destruct (m fuel context) as [x c | e |]; try reflexivity.
  rewrite (reduce_observe a _ (k x)); reflexivity.
Qed.

(** One turn of the loop of [many]. *)
Lemma reduce_many_turn p result a fuel context :
  reduce (S (S a)) (ITree.iter (parse_many_step p) result) fuel context =
  match (p <|> ret VClass_ParserError) fuel context with
  | Ok x context' =>
      if is_ParserError_class x then Ok (VList result) context'
      else reduce a (ITree.iter (parse_many_step p) (result ++ [x])) fuel context'
  | Raise e => Raise e
  | OutOfFuel => OutOfFuel
  end.
Proof.
  cbn [reduce]. cbn. unfold bind.
  destruct ((p <|> ret VClass_ParserError) fuel context) as [x c | e |]; try reflexivity.
  rewrite observe_subst_subst_ret.
  destruct (is_ParserError_class x); rewrite observe_subst_ret; reflexivity.
Qed.

Lemma or_Ok p q context v rest :
  returns p context (Ok v rest) -> returns (p <|> q) context (Ok v rest).
Proof.
  intros [_ [n Hn]]. split; [discriminate|]. exists n. intros m Hm.
  unfold __or__. now rewrite (Hn m Hm).
Qed.

Lemma or_ParserError p q context msg o :
  returns p context (Raise (ParserError msg)) -> returns q context o ->
  returns (p <|> q) context o.
Proof.
  intros [_ [n Hn]] [Ho [m Hm]]. split; [exact Ho|]. exists (Nat.max n m). intros k Hk.
  unfold __or__. rewrite (Hn k) by lia. apply Hm. lia.
Qed.

Lemma returns_ret v context : returns (ret v) context (Ok v context).
Proof. split; [discriminate|]. exists 0. reflexivity. Qed.

(** The loop of [many]: it collects what the successive runs of the guarded
    parser return, and ends when one of them returns the class. *)
Lemma many_loop p context vs mid :
  iterates p context vs mid ->
  forall rest, returns (p <|> ret VClass_ParserError) mid (Ok VClass_ParserError rest) ->
  forall result, exists depth, forall a fuel, depth <= a -> depth <= fuel ->
    reduce a (ITree.iter (parse_many_step p) result) fuel context
    = Ok (VList (result ++ vs)) rest.
Proof.
  induction 1 as [context | context v context' vs mid Hv Hclass Hit IH];
    intros rest Hend result.
  - destruct Hend as [_ [n Hn]]. exists (S (S n)). intros a fuel Ha Hfuel.
    destruct a as [|[|a]]; try lia.
    rewrite reduce_many_turn, (Hn fuel) by lia. simpl. now rewrite app_nil_r.
  - destruct (IH rest Hend (result ++ [v])) as [d Hd].
    destruct (or_Ok p (ret VClass_ParserError) _ _ _ Hv) as [_ [n Hn]].
    exists (S (S (Nat.max d n))). intros a fuel Ha Hfuel.
    destruct a as [|[|a]]; try lia.
    rewrite reduce_many_turn, (Hn fuel), Hclass by lia.
    rewrite Hd by lia. now rewrite <- app_assoc.
Qed.

Lemma many_iterates p context vs mid rest :
  iterates p context vs mid ->
  returns (p <|> ret VClass_ParserError) mid (Ok VClass_ParserError rest) ->
  returns (many p) context (Ok (VList vs) rest).
Proof.
  intros Hit Hend. destruct (many_loop p context vs mid Hit rest Hend []) as [d Hd].
  split; [discriminate|]. exists d. intros fuel Hfuel.
  unfold many, do. now apply Hd.
Qed.

(** A parser that returns on every input, raises nothing but
    [ParserError], consumes whenever it succeeds and never returns the
    class: [many] runs it to its first failure. *)
Lemma many_collects (p : Parser) :
  (forall context, exists o, returns p context o) ->
  (forall context e, returns p context (Raise e) -> is_ParserError e = true) ->
  (forall context v rest,
     returns p context (Ok v rest) -> String.length rest < String.length context) ->
  (forall context v rest,
     returns p context (Ok v rest) -> is_ParserError_class v = false) ->
  forall context, exists vs rest,
    returns (many p) context (Ok (VList vs) rest) /\
    iterates p context vs rest /\
    exists msg, returns p rest (Raise (ParserError msg)).
Proof.
  intros Htotal Hfail Hconsume Hclass context.
  remember (String.length context) as n eqn:Hn. revert context Hn.
  induction n as [n IH] using lt_wf_ind. intros context ->.
  destruct (Htotal context) as [o Ho].
  destruct o as [v context' | e |].
  - destruct (IH _ (Hconsume _ _ _ Ho) context' eq_refl) as (vs & rest & Hmany & Hit & msg & Hmsg).
    assert (Hit' : iterates p context (v :: vs) rest).
    { econstructor; [exact Ho | exact (Hclass _ _ _ Ho) | exact Hit]. }
    exists (v :: vs), rest. split; [|split; [exact Hit' | exists msg; exact Hmsg]].
    apply many_iterates with rest; [exact Hit'|].
    eapply or_ParserError; [exact Hmsg | apply returns_ret].
  - pose proof (Hfail _ _ Ho) as He. destruct e as [msg| | | | |]; try discriminate.
    exists [], context. split; [|split; [constructor | exists msg; exact Ho]].
    apply many_iterates with context; [constructor|].
    eapply or_ParserError; [exact Ho | apply returns_ret].
  - destruct Ho as [Ho _]. congruence.
Qed.

(** ** The do-notation, written out as nested [bind] *)

Lemma reduce_body a m k k' fuel context :
  (forall x c, reduce a (k x) fuel c = k' x fuel c) ->
  reduce (S a) (x <- yield m ;; k x) fuel context = bind m k' fuel context.
Proof.
  intros H. rewrite reduce_yield. unfold bind.
  destruct (m fuel context); try reflexivity. apply H.
Qed.

Lemma sat_unfold pr fuel context :
  2 <= fuel ->
  sat pr fuel context =
  bind pop (fun ch => if pr ch then ret ch else failing (ParserError (Unexpected ch)))
    fuel context.
Proof.
  intros H. destruct fuel as [|[|a]]; try lia. unfold sat, do.
  apply reduce_body. intros x c. destruct (pr x); reflexivity.
Qed.

Lemma token_unfold p fuel context :
  3 <= fuel ->
  token p fuel context = bind p (fun a => bind space (fun _ => ret a)) fuel context.
Proof.
  intros H. destruct fuel as [|[|[|a]]]; try lia. unfold token, do.
  apply reduce_body. intros x c. apply reduce_body. reflexivity.
Qed.

Lemma many1_unfold p fuel context :
  3 <= fuel ->
  many1 p fuel context =
  bind p (fun x => bind (many p) (fun xs =>
    match xs with
    | VList l => ret (VList (x :: l))
    | _ => failing TypeError
    end)) fuel context.
Proof.
  intros H. destruct fuel as [|[|[|a]]]; try lia. unfold many1, do.
  apply reduce_body. intros x c. apply reduce_body. intros xs c'.
  destruct xs; reflexivity.
Qed.

Lemma operator_unfold p_op p_n1 p_n2 fuel context :
  5 <= fuel ->
  operator p_op p_n1 p_n2 fuel context =
  bind p_n1 (fun n1 => bind p_op (fun op => bind p_n2 (fun n2 =>
    of_result (Py.call2 op n1 n2)))) fuel context.
Proof.
  intros H. destruct fuel as [|[|[|[|[|a]]]]]; try lia. unfold operator, do.
  apply reduce_body. intros n1 c1. apply reduce_body. intros op c2.
  apply reduce_body. intros n2 c3. destruct (Py.call2 op n1 n2); reflexivity.
Qed.

Lemma operator_symbol_unfold s f fuel context :
  2 <= fuel ->
  do (fun _ => yield (symb s) ;; Ret (ret (VLambda f))) fuel context =
  bind (symb s) (fun _ => ret (VLambda f)) fuel context.
Proof.
  intros H. destruct fuel as [|[|a]]; try lia. unfold do.
  apply reduce_body. reflexivity.
Qed.

Lemma parse_parenthesis_unfold e fuel context :
  4 <= fuel ->
  parse_parenthesis e fuel context =
  bind (symb "(") (fun _ => bind e (fun n => bind (symb ")") (fun _ => ret n)))
    fuel context.
Proof.
  intros H. destruct fuel as [|[|[|[|a]]]]; try lia. unfold parse_parenthesis, do.
  apply reduce_body. intros x c1. apply reduce_body. intros n c2.
  apply reduce_body. reflexivity.
Qed.

Lemma string_body_unfold s fuel : forall chars a context,
  String.length chars < a ->
  reduce a (string_body chars s) fuel context = string_chars chars s fuel context.
Proof.
  induction chars as [|ch chars IH]; intros a context H; simpl in H.
  - destruct a; [lia | reflexivity].
  - destruct a; [lia|]. cbn [string_body string_chars].
    apply reduce_body. intros x c. apply IH. lia.
Qed.

Lemma string_unfold s fuel context :
  String.length s < fuel ->
  string s fuel context = string_chars s s fuel context.
Proof. intros H. unfold string, do. now apply string_body_unfold. Qed.

(** ** Consumption *)

Lemma sat_consumes pr : consumes (sat pr).
Proof.
  intros fuel context v rest H. unfold sat, do in H.
  destruct fuel as [|a]; [discriminate|].
  rewrite reduce_yield in H. apply bind_Ok in H as (x & c & Hpop & Hk).
  destruct context as [|ch context]; simpl in Hpop; [discriminate|].
  injection Hpop as <- <-.
  destruct a as [|a]; [discriminate|]. simpl in Hk.
  destruct (pr _); simpl in Hk; [|discriminate].
  injection Hk as _ <-. simpl. lia.
Qed.

Lemma many1_consumes p : keeps_suffix p -> consumes p -> consumes (many1 p).
Proof.
  intros Hk Hp fuel context v rest H. unfold many1, do in H.
  destruct fuel as [|a]; [discriminate|].
  rewrite reduce_yield in H. apply bind_Ok in H as (x & c & Hx & H).
  destruct a as [|a]; [discriminate|].
  rewrite reduce_yield in H. apply bind_Ok in H as (xs & c' & Hxs & H).
  apply Hp in Hx.
  apply (many_compat _ keeps_suffix_compatible p p Hk), suffix_length in Hxs.
  destruct a as [|a]; [discriminate|].
  destruct xs; simpl in H; try discriminate.
  injection H as _ <-. lia.
Qed.

Lemma token_consumes p : consumes p -> consumes (token p).
Proof.
  intros Hp fuel context v rest H. unfold token, do in H.
  destruct fuel as [|a]; [discriminate|].
  rewrite reduce_yield in H. apply bind_Ok in H as (x & c & Hx & H).
  destruct a as [|a]; [discriminate|].
  change (yield space ;; Ret (ret x)) with (y <- yield space ;; Ret (ret x)) in H.
  rewrite reduce_yield in H. apply bind_Ok in H as (y & c' & Hy & H).
  apply Hp in Hx.
  apply (space_compat _ keeps_suffix_compatible), suffix_length in Hy.
  destruct a as [|a]; [discriminate|].
  simpl in H. injection H as _ <-. lia.
Qed.

Lemma digits_consumes : consumes digits.
Proof.
  intros fuel context v rest H. unfold digits in H.
  destruct (token _ fuel context) as [x c | e |] eqn:E; try discriminate.
  destruct (result_bind _ _); try discriminate. injection H as _ <-.
  revert E. apply token_consumes, many1_consumes.
  - apply (sat_compat _ keeps_suffix_compatible).
  - apply sat_consumes.
Qed.

Lemma or_consumes p q : consumes p -> consumes q -> consumes (p <|> q).
Proof.
  intros Hp Hq fuel context v rest H. unfold __or__ in H.
  destruct (p fuel context) as [a c | e |] eqn:E; try discriminate.
  - injection H as _ <-. eapply Hp, E.
  - destruct e; try discriminate. eapply Hq, H.
Qed.

Lemma string_consumes ch s : consumes (string (String ch s)).
Proof.
  intros fuel context v rest H. unfold string, do in H.
  destruct fuel as [|a]; [discriminate|]. cbn [string_body] in H.
  rewrite reduce_yield in H. apply bind_Ok in H as (x & c & Hx & H).
  apply sat_consumes in Hx.
  pose proof (reduce_compat _ keeps_suffix_compatible a _ _
                (string_body_compat _ keeps_suffix_compatible (String ch s) s a)
                _ c v rest H) as Hs.
  apply suffix_length in Hs. lia.
Qed.

Lemma symb_consumes ch s : consumes (symb (String ch s)).
Proof. apply token_consumes, string_consumes. Qed.

Lemma operator_consumes p_op p_n1 p_n2 :
  keeps_suffix p_op -> consumes p_n1 -> keeps_suffix p_n2 ->
  consumes (operator p_op p_n1 p_n2).
Proof.
  intros Hop H1 H2 fuel context v rest H. unfold operator, do in H.
  destruct fuel as [|a]; [discriminate|].
  rewrite reduce_yield in H. apply bind_Ok in H as (n1 & c1 & Hn1 & H).
  destruct a as [|a]; [discriminate|].
  rewrite reduce_yield in H. apply bind_Ok in H as (op & c2 & Hc2 & H).
  destruct a as [|a]; [discriminate|].
  rewrite reduce_yield in H. apply bind_Ok in H as (n2 & c3 & Hc3 & H).
  apply H1 in Hn1. apply Hop, suffix_length in Hc2. apply H2, suffix_length in Hc3.
  destruct a as [|a]; [discriminate|]. simpl in H.
  destruct (Py.call2 op n1 n2); simpl in H; [|discriminate].
  injection H as _ <-. lia.
Qed.

Lemma parse_parenthesis_consumes e : keeps_suffix e -> consumes (parse_parenthesis e).
Proof.
  intros He fuel context v rest H. unfold parse_parenthesis, do in H.
  destruct fuel as [|a]; [discriminate|].
  rewrite reduce_yield in H. apply bind_Ok in H as (x & c1 & Hc1 & H).
  destruct a as [|a]; [discriminate|].
  rewrite reduce_yield in H. apply bind_Ok in H as (n & c2 & Hc2 & H).
  destruct a as [|a]; [discriminate|].
  rewrite reduce_yield in H. apply bind_Ok in H as (y & c3 & Hc3 & H).
  apply symb_consumes in Hc1. apply He, suffix_length in Hc2.
  apply (symb_compat _ keeps_suffix_compatible), suffix_length in Hc3.
  destruct a as [|a]; [discriminate|]. simpl in H.
  injection H as _ <-. lia.
Qed.

Lemma operator_symbols_keep_suffix s f s' f' :
  keeps_suffix (do (fun _ => yield (symb s) ;; Ret (ret (VLambda f)))
                <|> do (fun _ => yield (symb s') ;; Ret (ret (VLambda f')))).
Proof.
  apply (compat_or _ keeps_suffix_compatible
           _ (ret VNone) _ (ret VNone));
    apply (operator_symbol_compat _ keeps_suffix_compatible).
Qed.

Lemma parse_production_consumes n : forall which,
  consumes (fun _ => parse_production n which).
Proof.
  induction n as [|n IH]; intros which k context v rest H; [discriminate|].
  rewrite parse_production_S in H. revert H.
  destruct which; apply or_consumes.
  - apply operator_consumes;
      [apply operator_symbols_keep_suffix | apply IH | apply parse_production_keeps_suffix].
  - apply IH.
  - apply operator_consumes;
      [apply operator_symbols_keep_suffix | apply IH | apply parse_production_keeps_suffix].
  - apply IH.
  - apply digits_consumes.
  - apply parse_parenthesis_consumes, parse_production_keeps_suffix.
Qed.

Lemma returns_consumes p context v rest :
  consumes p -> returns p context (Ok v rest) ->
  String.length rest < String.length context.
Proof. intros Hp [_ [n Hn]]. exact (Hp n context v rest (Hn n (le_n n))). Qed.

Lemma returns_keeps_suffix p context v rest :
  keeps_suffix p -> returns p context (Ok v rest) ->
  String.length rest <= String.length context.
Proof.
  intros Hp [_ [n Hn]]. apply suffix_length. exact (Hp n context v rest (Hn n (le_n n))).
Qed.

(** ** Termination *)

Lemma returns_eventually p q context depth o :
  (forall fuel, depth <= fuel -> p fuel context = q fuel context) ->
  returns q context o -> returns p context o.
Proof.
  intros H [Ho [n Hn]]. split; [exact Ho|]. exists (Nat.max depth n). intros fuel Hfuel.
  rewrite H by lia. apply Hn. lia.
Qed.

Lemma halts_eventually p q context depth :
  (forall fuel, depth <= fuel -> p fuel context = q fuel context) ->
  halts q context -> halts p context.
Proof. intros H [o Ho]. exists o. eapply returns_eventually; eauto. Qed.

Lemma halts_of_result r context : halts (of_result r) context.
Proof.
  destruct r as [v|e].
  - exists (Ok v context). split; [discriminate | exists 0; reflexivity].
  - exists (Raise e). split; [discriminate | exists 0; reflexivity].
Qed.

Lemma halts_ret v context : halts (ret v) context.
Proof. exact (halts_of_result (Val v) context). Qed.

Lemma halts_failing e context : halts (failing e) context.
Proof. exact (halts_of_result (Exc e) context). Qed.

Lemma halts_bind p f context :
  halts p context ->
  (forall a context', returns p context (Ok a context') -> halts (f a) context') ->
  halts (bind p f) context.
Proof.
  intros [o Ho] Hf. destruct o as [a c | e |].
  - destruct (Hf a c Ho) as [o' [Ho' [m Hm]]]. destruct Ho as [_ [n Hn]].
    exists o'. split; [exact Ho'|]. exists (Nat.max n m). intros fuel Hfuel.
    unfold bind. rewrite Hn by lia. apply Hm. lia.
  - destruct Ho as [_ [n Hn]]. exists (Raise e). split; [discriminate|].
    exists n. intros fuel Hfuel. unfold bind. now rewrite Hn.
  - destruct Ho as [Ho _]. congruence.
Qed.

Lemma halts_or p q context :
  halts p context -> halts q context -> halts (p <|> q) context.
Proof.
  intros [o Ho] [o' Ho']. destruct o as [a c | e |].
  - exists (Ok a c). now apply or_Ok.
  - destruct e as [msg| | | | |];
      try (eexists; destruct Ho as [_ [n Hn]]; split; [|exists n; intros fuel Hfuel;
           unfold __or__; rewrite Hn by exact Hfuel; reflexivity]; discriminate).
    exists o'. eapply or_ParserError; eauto.
  - destruct Ho as [Ho _]. congruence.
Qed.

(** What [sat] does. *)
Lemma sat_returns pr context :
  returns (sat pr) context
    match context with
    | "" => Raise (ParserError (Msg "unexpected EOF"))
    | String c rest =>
        if pr (VStr (String c "")) then Ok (VStr (String c "")) rest
        else Raise (ParserError (Unexpected (VStr (String c ""))))
    end%string.
Proof.
  split.
  - destruct context as [|c rest]; [discriminate|]. destruct (pr _); discriminate.
  - exists 2. intros fuel Hfuel. rewrite sat_unfold by exact Hfuel.
    unfold bind. destruct context as [|c rest]; [reflexivity|]. simpl.
    destruct (pr _); reflexivity.
Qed.

Lemma halts_many_sat pr context : halts (many (sat pr)) context.
Proof.
  destruct (many_collects (sat pr)) with (context := context) as (vs & rest & H & _).
  - intros c. eexists. apply sat_returns.
  - intros c e H. pose proof (returns_functional _ _ _ _ H (sat_returns pr c)) as E.
    destruct c as [|ch c]; [inversion E; reflexivity|].
    destruct (pr _); inversion E; reflexivity.
  - intros c v rest [_ [n Hn]]. exact (sat_consumes pr n c v rest (Hn n (le_n n))).
  - intros c v rest H. pose proof (returns_functional _ _ _ _ H (sat_returns pr c)) as E.
    destruct c as [|ch c]; [discriminate|].
    destruct (pr _); inversion E; reflexivity.
  - eexists. exact H.
Qed.

Lemma halts_space context : halts space context.
Proof. exact (halts_many_sat _ context). Qed.

Lemma halts_token p context : halts p context -> halts (token p) context.
Proof.
  intros H. apply (halts_eventually _ _ _ 3 (fun fuel => token_unfold p fuel context)).
  apply halts_bind; [exact H|]. intros a c _.
  apply halts_bind; [apply halts_space|]. intros _ c' _.
  apply halts_ret.
Qed.

Lemma halts_string_chars s : forall chars context, halts (string_chars chars s) context.
Proof.
  induction chars as [|ch chars IH]; intros context; simpl.
  - apply halts_ret.
  - apply halts_bind; [eexists; apply sat_returns|]. intros _ c _. apply IH.
Qed.

Lemma halts_symb s context : halts (symb s) context.
Proof.
  apply halts_token.
  apply (halts_eventually _ _ _ (S (String.length s))
           (fun fuel => string_unfold s fuel context)).
  apply halts_string_chars.
Qed.

Lemma digits_bind fuel context :
  digits fuel context =
  bind (token (many1 (sat (Py.is_in "1234567890."))))
       (fun x => of_result (result_bind (Py.join x) Py.eval)) fuel context.
Proof.
  unfold digits, bind, of_result. destruct (token _ fuel context); reflexivity.
Qed.

Lemma halts_digits context : halts digits context.
Proof.
  apply (halts_eventually _ _ _ 0 (fun fuel _ => digits_bind fuel context)).
  apply halts_bind; [|intros; apply halts_of_result].
  apply halts_token.
  apply (halts_eventually _ _ _ 3 (fun fuel => many1_unfold _ fuel context)).
  apply halts_bind; [eexists; apply sat_returns|]. intros x c _.
  apply halts_bind; [apply halts_many_sat|]. intros xs c' _.
  destruct xs; try apply halts_failing. apply halts_ret.
Qed.

Lemma halts_operator_symbol s f context :
  halts (do (fun _ => yield (symb s) ;; Ret (ret (VLambda f)))) context.
Proof.
  apply (halts_eventually _ _ _ 2 (fun fuel => operator_symbol_unfold s f fuel context)).
  apply halts_bind; [apply halts_symb|]. intros; apply halts_ret.
Qed.

Lemma halts_operator p_op p_n1 p_n2 context :
  halts p_n1 context ->
  (forall context', halts p_op context') ->
  (forall n1 c1 op c2,
     returns p_n1 context (Ok n1 c1) -> returns p_op c1 (Ok op c2) -> halts p_n2 c2) ->
  halts (operator p_op p_n1 p_n2) context.
Proof.
  intros H1 Hop H2.
  apply (halts_eventually _ _ _ 5 (fun fuel => operator_unfold _ _ _ fuel context)).
  apply halts_bind; [exact H1|]. intros n1 c1 Hn1.
  apply halts_bind; [apply Hop|]. intros op c2 Hc2.
  apply halts_bind; [eapply H2; eauto|]. intros; apply halts_of_result.
Qed.

Lemma halts_next p q context :
  (forall fuel, p (S fuel) context = q fuel context) ->
  halts q context -> halts p context.
Proof.
  intros H [o [Ho [n Hn]]]. exists o. split; [exact Ho|]. exists (S n).
  intros fuel Hfuel. destruct fuel as [|fuel]; [lia|]. rewrite H. apply Hn. lia.
Qed.

Lemma factor_consumes : consumes factor.
Proof. intros fuel. apply (parse_production_consumes fuel Factor fuel). Qed.

Lemma term_consumes : consumes term.
Proof. intros fuel. apply (parse_production_consumes fuel Term fuel). Qed.

Lemma halts_operator_symbols s f s' f' context :
  halts (do (fun _ => yield (symb s) ;; Ret (ret (VLambda f)))
         <|> do (fun _ => yield (symb s') ;; Ret (ret (VLambda f')))) context.
Proof. apply halts_or; apply halts_operator_symbol. Qed.

(** Every production returns on every input: a call that does not consume
    is a call of a production further down ([expr], [term], [factor]), and
    every other call is on a shorter input. *)
Lemma productions_halt bound : forall context,
  String.length context < bound ->
  halts factor context /\ halts term context /\ halts expr context.
Proof.
  induction bound as [|bound IH]; intros context Hlen; [lia|].
  assert (Hf : halts factor context).
  { apply (halts_next _ _ _ (fun fuel => factor_unfold fuel context)).
    apply halts_or; [apply halts_digits|].
    apply (halts_eventually _ _ _ 4 (fun fuel => parse_parenthesis_unfold _ fuel context)).
    apply halts_bind; [apply halts_symb|]. intros x c1 Hc1.
    apply (returns_consumes _ _ _ _ (symb_consumes _ _)) in Hc1.
    apply halts_bind; [apply IH; lia|]. intros n c2 _.
    apply halts_bind; [apply halts_symb|]. intros; apply halts_ret. }
  assert (Ht : halts term context).
  { apply (halts_next _ _ _ (fun fuel => term_unfold fuel context)).
    apply halts_or; [|exact Hf].
    apply halts_operator; [exact Hf | intros; apply halts_operator_symbols|].
    intros n1 c1 op c2 Hc1 Hc2.
    apply (returns_consumes _ _ _ _ factor_consumes) in Hc1.
    apply (returns_keeps_suffix _ _ _ _ (operator_symbols_keep_suffix _ _ _ _)) in Hc2.
    apply IH. lia. }
  split; [exact Hf|]. split; [exact Ht|].
  apply (halts_next _ _ _ (fun fuel => expr_unfold fuel context)).
  apply halts_or; [|exact Ht].
  apply halts_operator; [exact Ht | intros; apply halts_operator_symbols|].
  intros n1 c1 op c2 Hc1 Hc2.
  apply (returns_consumes _ _ _ _ term_consumes) in Hc1.
  apply (returns_keeps_suffix _ _ _ _ (operator_symbols_keep_suffix _ _ _ _)) in Hc2.
  apply IH. lia.
Qed.

(** X6: the top-level parser terminates on every input, the interpreter's
    recursion limit apart: for every input there is an outcome, a value
    with the input left or an exception, that every budget from some depth
    on gives. *)
Theorem expr_total context : exists o, returns expr context o.
Proof. apply (productions_halt (S (String.length context))). lia. Qed.

(** ** Runs of the module's parsers on given inputs *)

(** A monotone parser returns what one sufficient budget gives. *)
Ltac run_with fuel :=
  apply (returns_monotone _ fuel);
  [ | vm_compute; reflexivity | discriminate ].

Lemma digits_monotone : monotone digits.
Proof. exact (digits_compat _ refines_compatible). Qed.

Lemma addop_term_expr_monotone : monotone (addop term expr).
Proof.
  apply (addop_compat _ refines_compatible); [apply term_monotone | apply expr_monotone].
Qed.

Lemma many_monotone p : monotone p -> monotone (many p).
Proof. apply (many_compat _ refines_compatible). Qed.

Lemma pop_returns context :
  returns pop context
    match context with
    | "" => Raise (ParserError (Msg "unexpected EOF"))
    | String c rest => Ok (VStr (String c "")) rest
    end%string.
Proof.
  split; [destruct context; discriminate|]. exists 0. intros fuel _.
  destruct context; reflexivity.
Qed.

(** C1, as the code has it: [token] skips the whitespace that follows what
    it parsed and nothing skips the whitespace before it.  On ["1 + 2  "]
    [expr] returns 3 and the empty text.  On every text that starts with a
    blank, ["  1 + 2  "] among them, the first character is the one no
    alternative accepts, and [expr] raises [ParserError("unexpected  ")]. *)
Theorem expr_skips_trailing_whitespace_only :
  returns expr "1 + 2  " (Ok (VInt 3) "") /\
  returns expr "  1 + 2  " (Raise (ParserError (Unexpected (VStr " ")))) /\
  forall rest,
    returns expr (String " " rest) (Raise (ParserError (Unexpected (VStr " ")))).
Proof.
  split; [|split].
  - run_with 12. apply expr_monotone.
  - run_with 12. apply expr_monotone.
  - intros rest. run_with 12. apply expr_monotone.
Qed.

(** C1 as stated fails: on ["  1 + 2  "] the parse does not return 3. *)
Lemma expr_leading_whitespace_fails :
  returns expr "  1 + 2  " (Raise (ParserError (Unexpected (VStr " ")))) /\
  ~ returns expr "  1 + 2  " (Ok (VInt 3) "").
Proof.
  assert (H : returns expr "  1 + 2  " (Raise (ParserError (Unexpected (VStr " "))))).
  { run_with 12. apply expr_monotone. }
  split; [exact H|]. intros H'. discriminate (returns_functional _ _ _ _ H H').
Qed.

(** C2, as the code has it: on ["1+"] the alternative [addop(term, expr)]
    raises [ParserError("unexpected EOF")] once the operand after [+] is
    missing; [expr] recovers from it and runs the bare [term] on the whole
    input, which returns 1 and leaves ["+"]. *)
Theorem expr_dangling_operator_is_left_over :
  returns (addop term expr) "1+" (Raise (ParserError (Msg "unexpected EOF"))) /\
  returns term "1+" (Ok (VInt 1) "+") /\
  returns expr "1+" (Ok (VInt 1) "+").
Proof.
  split; [|split].
  - run_with 12. apply addop_term_expr_monotone.
  - run_with 12. apply term_monotone.
  - run_with 12. apply expr_monotone.
Qed.

(** C2 as stated fails: on ["1+"] the parse raises nothing and produces the
    value 1. *)
Lemma expr_dangling_operator_succeeds :
  returns expr "1+" (Ok (VInt 1) "+") /\
  forall e, ~ returns expr "1+" (Raise e).
Proof.
  assert (H : returns expr "1+" (Ok (VInt 1) "+")).
  { run_with 12. apply expr_monotone. }
  split; [exact H|]. intros e H'. discriminate (returns_functional _ _ _ _ H H').
Qed.

(** C3: when [p1] raises [ParserError] on an input, [p1 | p2] does on that
    input what [p2] does on it, whatever [p1] consumed before it failed; in
    particular it raises what [p2] raises. *)
Theorem or_else_fallback (p1 p2 : Parser) fuel context msg :
  p1 fuel context = Raise (ParserError msg) ->
  (p1 <|> p2) fuel context = p2 fuel context /\
  (forall e, p2 fuel context = Raise e -> (p1 <|> p2) fuel context = Raise e).
Proof.
  intros H. unfold __or__. rewrite H. split; [reflexivity | intros e He; exact He].
Qed.

(** [string("ab")] consumes the [a] of ["ac"] before it fails on the [c];
    [string("ac")] then starts from ["ac"] again. *)
Lemma or_else_fallback_witness :
  string "ab" 9 "ac" = Raise (ParserError (Unexpected (VStr "c"))) /\
  (string "ab" <|> string "ac") 9 "ac" = string "ac" 9 "ac" /\
  string "ac" 9 "ac" = Ok (VStr "ac") "".
Proof.
  split; [vm_compute; reflexivity|]. split; [|vm_compute; reflexivity].
  apply (or_else_fallback (string "ab") (string "ac") 9 "ac" (Unexpected (VStr "c"))).
  vm_compute; reflexivity.
Defined.

(** C4: on ["10/2/5"] [expr] returns the float 25.0 and the empty text: the
    value of 10/(2/5), the right operand of the first division being the
    [term] ["2/5"]; grouping to the left would have given 1.0. *)
Theorem expr_division_right_associative :
  returns expr "10/2/5" (Ok (VFloat float_25) "") /\
  returns term "2/5" (Ok (VFloat float_0_4) "") /\
  Py.truediv (VInt 10) (VFloat float_0_4) = Val (VFloat float_25) /\
  Py.float_of_int 25 = Val float_25 /\
  result_bind (Py.truediv (VInt 10) (VInt 2)) (fun q => Py.truediv q (VInt 5))
    = Val (VFloat float_1) /\
  Py.float_of_int 1 = Val float_1.
Proof.
  split; [run_with 14; apply expr_monotone|].
  split; [run_with 14; apply term_monotone|].
  split; [vm_compute; reflexivity|].
  split; [vm_compute; reflexivity|].
  split; vm_compute; reflexivity.
Qed.

(** C5, as the code has it, given enough recursion depth.  Let [p] return
    on every input, raise nothing but [ParserError], consume at least one
    character whenever it succeeds and never return the [ParserError] class.
    Then for every input there is a depth from which on every budget makes
    [many(p)] return, and what it returns is the list of the values of the
    successive successes of [p] together with the input at which [p] first
    fails.  The depth depends on the input (lemma [many_loop_depth]); what a
    run does at the interpreter's recursion limit is not stated. *)
Theorem many_total (p : Parser) :
  (forall context, exists o, returns p context o) ->
  (forall context e, returns p context (Raise e) -> is_ParserError e = true) ->
  (forall context v rest,
     returns p context (Ok v rest) -> String.length rest < String.length context) ->
  (forall context v rest,
     returns p context (Ok v rest) -> is_ParserError_class v = false) ->
  forall context, exists vs rest,
    returns (many p) context (Ok (VList vs) rest) /\
    iterates p context vs rest /\
    exists msg, returns p rest (Raise (ParserError msg)).
Proof. exact (many_collects p). Qed.

Lemma pop_halts context : exists o, returns pop context o.
Proof. eexists. apply pop_returns. Qed.

Lemma pop_raises_ParserError context e :
  returns pop context (Raise e) -> is_ParserError e = true.
Proof.
  intros H. pose proof (returns_functional _ _ _ _ H (pop_returns context)) as E.
  destruct context; inversion E; reflexivity.
Qed.

Lemma pop_consumes context v rest :
  returns pop context (Ok v rest) -> String.length rest < String.length context.
Proof.
  intros H. pose proof (returns_functional _ _ _ _ H (pop_returns context)) as E.
  destruct context; inversion E; simpl; lia.
Qed.

Lemma pop_value_is_no_class context v rest :
  returns pop context (Ok v rest) -> is_ParserError_class v = false.
Proof.
  intros H. pose proof (returns_functional _ _ _ _ H (pop_returns context)) as E.
  destruct context; inversion E; reflexivity.
Qed.

Lemma many_total_witness :
  exists vs rest,
    returns (many pop) "ab" (Ok (VList vs) rest) /\
    iterates pop "ab" vs rest /\
    exists msg, returns pop rest (Raise (ParserError msg)).
Proof.
  apply (many_total pop).
  - apply pop_halts.
  - apply pop_raises_ParserError.
  - apply pop_consumes.
  - apply pop_value_is_no_class.
Defined.

(** C5 as stated fails.  [digits] consumes a character on every success,
    yet [many(digits)] raises [SyntaxError] on ["1..2"]; [pop_class]
    consumes a character on every success, succeeds twice on ["ab"] and
    then fails, yet [many(pop_class)] returns the empty list and leaves
    ["b"]. *)
Lemma many_not_total :
  (forall context v rest,
     returns digits context (Ok v rest) -> String.length rest < String.length context) /\
  returns (many digits) "1..2" (Raise SyntaxError) /\
  (forall context v rest,
     returns pop_class context (Ok v rest) -> String.length rest < String.length context) /\
  returns pop_class "ab" (Ok VClass_ParserError "b") /\
  returns pop_class "b" (Ok VClass_ParserError "") /\
  returns pop_class "" (Raise (ParserError (Msg "unexpected EOF"))) /\
  returns (many pop_class) "ab" (Ok (VList []) "b").
Proof.
  assert (Hmono : monotone pop_class).
  { apply (compat_bind _ refines_compatible).
    - apply (compat_pop _ refines_compatible).
    - intros _. apply (ret_compat _ refines_compatible). }
  split; [|split; [|split; [|split; [|split; [|split]]]]].
  - intros context v rest [_ [n Hn]].
    exact (digits_consumes n context v rest (Hn n (le_n n))).
  - run_with 8. apply many_monotone, digits_monotone.
  - intros context v rest [_ [n Hn]]. specialize (Hn n (le_n n)).
    unfold pop_class, bind in Hn. destruct context; simpl in Hn; [discriminate|].
    injection Hn as _ <-. simpl. lia.
  - run_with 0. exact Hmono.
  - run_with 0. exact Hmono.
  - run_with 0. exact Hmono.
  - run_with 4. apply many_monotone, Hmono.
Qed.

(** C6: the monad laws, as equalities of what the two parsers do with every
    budget on every input. *)
Theorem monad_laws :
  (forall v f fuel context, bind (ret v) f fuel context = f v fuel context) /\
  (forall p fuel context, bind p ret fuel context = p fuel context) /\
  (forall p f g fuel context,
     bind (bind p f) g fuel context = bind p (fun x => bind (f x) g) fuel context).
Proof.
  split; [|split].
  - reflexivity.
  - intros p fuel context. unfold bind, ret. destruct (p fuel context); reflexivity.
  - intros p f g fuel context. unfold bind. destruct (p fuel context); reflexivity.
Qed.

(** C7: a parser built from the combinators of the module returns, when it
    succeeds, a suffix of the input it was given; the remaining input is
    never longer than the input. *)
Theorem remaining_input_is_suffix (p : Parser) :
  built p ->
  forall fuel context v rest,
    p fuel context = Ok v rest ->
    suffix rest context /\ String.length rest <= String.length context.
Proof.
  intros Hp.
  assert (H : keeps_suffix p).
  { pose proof keeps_suffix_compatible as K.
    induction Hp.
    - intros fuel context v rest E. injection E as _ <-. apply suffix_refl.
    - apply (ret_compat _ K).
    - apply (compat_bind _ K p p f f); assumption.
    - apply (compat_or _ K p p q q); assumption.
    - apply (compat_pick _ K).
    - apply (compat_pop _ K).
    - apply (sat_compat _ K).
    - apply (char_compat _ K).
    - apply (string_compat _ K).
    - apply (many_compat _ K p p); assumption.
    - apply (many1_compat _ K p p); assumption.
    - apply (space_compat _ K).
    - apply (token_compat _ K p p); assumption.
    - apply (symb_compat _ K).
    - apply (operator_compat _ K p_op p_op p_n1 p_n1 p_n2 p_n2); assumption.
    - apply (addop_compat _ K pn1 pn1 pn2 pn2); assumption.
    - apply (mulop_compat _ K pn1 pn1 pn2 pn2); assumption.
    - apply (digits_compat _ K).
    - intros fuel. apply (parse_production_keeps_suffix fuel Factor fuel).
    - intros fuel. apply (parse_production_keeps_suffix fuel Term fuel).
    - intros fuel. apply (parse_production_keeps_suffix fuel Expr fuel). }
  intros fuel context v rest E. split; [|apply suffix_length]; eapply H, E.
Qed.

Lemma remaining_input_is_suffix_witness :
  suffix "+ 2" "(1) + 2" /\ String.length "+ 2" <= String.length "(1) + 2".
Proof.
  apply (remaining_input_is_suffix factor built_factor 14 "(1) + 2" (VInt 1) "+ 2").
  vm_compute. reflexivity.
Defined.

(** C8, at the input where the code departs from it: the text ["..."] is no
    number, and [digits] returns on it, with the value [Ellipsis]; so does
    [expr]. *)
Theorem digits_accepts_three_dots :
  returns digits "..." (Ok VEllipsis "") /\
  returns expr "..." (Ok VEllipsis "").
Proof.
  split.
  - run_with 8. apply digits_monotone.
  - run_with 14. apply expr_monotone.
Qed.

(** Where [eval] does reject the text, [digits] raises what [eval] raised,
    and that is no [ParserError]. *)
Lemma digits_two_dots :
  returns digits "1..2" (Raise SyntaxError) /\ is_ParserError SyntaxError = false.
Proof.
  split; [|reflexivity]. run_with 8. apply digits_monotone.
Qed.

(** C9: [p | q] raises what [p] raises when that is no [ParserError],
    whatever [q] is, be it a parser that never returns.  So [digits | q]
    raises [SyntaxError] on ["1..2"] for every [q], and so does [factor],
    whose second alternative is the parenthesised expression. *)
Theorem or_else_propagates_other_exceptions :
  (forall (p q : Parser) fuel context e,
     p fuel context = Raise e -> is_ParserError e = false ->
     (p <|> q) fuel context = Raise e) /\
  (forall q, returns (digits <|> q) "1..2" (Raise SyntaxError)) /\
  returns factor "1..2" (Raise SyntaxError).
Proof.
  assert (H : forall (p q : Parser) fuel context e,
     p fuel context = Raise e -> is_ParserError e = false ->
     (p <|> q) fuel context = Raise e).
  { intros p q fuel context e Hp He. unfold __or__. rewrite Hp.
    destruct e; [discriminate | reflexivity ..]. }
  split; [exact H|]. split.
  - intros q. destruct digits_two_dots as [[_ [n Hn]] _].
    split; [discriminate|]. exists n. intros fuel Hfuel.
    apply H; [apply Hn, Hfuel | reflexivity].
  - run_with 14. apply factor_monotone.
Qed.

(** With a second alternative that never returns. *)
Lemma or_else_propagates_other_exceptions_witness :
  digits 8 "1..2" = Raise SyntaxError /\
  (digits <|> (fun _ _ => OutOfFuel)) 8 "1..2" = Raise SyntaxError.
Proof.
  assert (H : digits 8 "1..2" = Raise SyntaxError) by (vm_compute; reflexivity).
  split; [exact H|].
  exact (proj1 or_else_propagates_other_exceptions
           digits (fun _ _ => OutOfFuel) 8 "1..2"%string SyntaxError H eq_refl).
Defined.

(** C10: let [p] succeed some times from [context] with the values [vs],
    and then succeed once more with the class [ParserError] as its value,
    leaving [rest].  Then [many(p)] returns [vs]: the last success is taken
    for the end of the repetition and its value is dropped.  (What that
    success consumed stays consumed: the remaining input is [rest].) *)
Theorem many_stops_at_ParserError_class (p : Parser) context vs mid rest :
  iterates p context vs mid ->
  returns p mid (Ok VClass_ParserError rest) ->
  returns (many p) context (Ok (VList vs) rest).
Proof.
  intros Hit Hend. apply many_iterates with mid; [exact Hit|].
  apply or_Ok, Hend.
Qed.

Lemma many_stops_at_ParserError_class_witness :
  returns (many pop_until_x) "abxcd" (Ok (VList [VStr "a"; VStr "b"]) "cd").
Proof.
  assert (H : forall context o, pop_until_x 0 context = o -> o <> OutOfFuel ->
                returns pop_until_x context o).
  { intros context o E Ho. split; [exact Ho|]. exists 0. intros fuel _.
    rewrite <- E. unfold pop_until_x, bind.
    destruct context as [|ch context]; simpl; [reflexivity|].
    match goal with |- context [if ?b then _ else _] => destruct b end; reflexivity. }
  apply (many_stops_at_ParserError_class pop_until_x "abxcd" _ "xcd" "cd").
  - apply iterates_cons with "bxcd"%string;
      [apply H; [reflexivity | discriminate] | reflexivity |].
    apply iterates_cons with "xcd"%string;
      [apply H; [reflexivity | discriminate] | reflexivity |].
    apply iterates_nil.
  - apply H; [reflexivity | discriminate].
Defined.

(** ** Further properties of the module *)

Lemma returns_bind_Ok p f context a context' o :
  returns p context (Ok a context') -> returns (f a) context' o ->
  returns (bind p f) context o.
Proof.
  intros [_ [n Hn]] [Ho [m Hm]]. split; [exact Ho|]. exists (Nat.max n m).
  intros fuel Hfuel. unfold bind. rewrite Hn by lia. apply Hm. lia.
Qed.

Lemma returns_bind_Raise p f context e :
  returns p context (Raise e) -> returns (bind p f) context (Raise e).
Proof.
  intros [_ [n Hn]]. split; [discriminate|]. exists n.
  intros fuel Hfuel. unfold bind. now rewrite Hn.
Qed.

(** X2: the do-notation is nested [bind].  [token(p)] returns what [p],
    then [space], then returning the value of [p] return; [many1(p)] what
    [p], then [many(p)], then returning the first value in front of the
    others return; [operator] what the first operand, then the operator,
    then the second operand, then applying the operator return. *)
Theorem do_notation_is_nested_bind :
  (forall p context o,
     returns (token p) context o <->
     returns (bind p (fun a => bind space (fun _ => ret a))) context o) /\
  (forall p context o,
     returns (many1 p) context o <->
     returns (bind p (fun x => bind (many p) (fun xs =>
                match xs with
                | VList l => ret (VList (x :: l))
                | _ => failing TypeError
                end))) context o) /\
  (forall p_op p_n1 p_n2 context o,
     returns (operator p_op p_n1 p_n2) context o <->
     returns (bind p_n1 (fun n1 => bind p_op (fun op => bind p_n2 (fun n2 =>
                of_result (Py.call2 op n1 n2))))) context o).
Proof.
  split; [|split].
  - intros p context o. split.
    + apply returns_eventually with 3. intros fuel H. symmetry. now apply token_unfold.
    + apply returns_eventually with 3. intros fuel H. now apply token_unfold.
  - intros p context o. split.
    + apply returns_eventually with 3. intros fuel H. symmetry. now apply many1_unfold.
    + apply returns_eventually with 3. intros fuel H. now apply many1_unfold.
  - intros p_op p_n1 p_n2 context o. split.
    + apply returns_eventually with 5. intros fuel H. symmetry. now apply operator_unfold.
    + apply returns_eventually with 5. intros fuel H. now apply operator_unfold.
Qed.

(** X3: the loop of [many] and the recursive definition the module leaves
    in a comment, [many1(p) | Parser.ret([])], return the same on every
    input, for a parser that returns on every input, raises nothing but
    [ParserError], consumes whenever it succeeds and never returns the
    [ParserError] class. *)
Theorem many_is_many1_or_nothing (p : Parser) :
  (forall context, exists o, returns p context o) ->
  (forall context e, returns p context (Raise e) -> is_ParserError e = true) ->
  (forall context v rest,
     returns p context (Ok v rest) -> String.length rest < String.length context) ->
  (forall context v rest,
     returns p context (Ok v rest) -> is_ParserError_class v = false) ->
  forall context, exists o,
    returns (many p) context o /\
    returns (many1 p <|> ret (VList [])) context o.
Proof.
  intros Htotal Hfail Hconsume Hclass context.
  pose proof (many_collects p Htotal Hfail Hconsume Hclass) as Hmany.
  destruct (Hmany context) as (vs & rest & Hrun & Hit & _).
  exists (Ok (VList vs) rest). split; [exact Hrun|].
  destruct Hit as [context | context v context' vs rest Hv _ Hit].
  - destruct (Htotal context) as [o Ho]. destruct o as [v c | e |].
    + destruct (Hmany c) as (vs' & rest' & Hrun' & Hit' & _).
      assert (E : Ok (VList (v :: vs')) rest' = Ok (VList []) context).
      { apply (returns_functional (many p) context); [|exact Hrun].
        destruct (Hmany c) as (vs'' & rest'' & Hrun'' & Hit'' & msg & Hmsg).
        pose proof (returns_functional _ _ _ _ Hrun' Hrun'') as E'.
        injection E' as -> ->.
        apply many_iterates with rest''.
        - econstructor; [exact Ho | exact (Hclass _ _ _ Ho) | exact Hit''].
        - eapply or_ParserError; [exact Hmsg | apply returns_ret]. }
      discriminate E.
    + pose proof (Hfail _ _ Ho) as He. destruct e as [msg| | | | |]; try discriminate.
      apply or_ParserError with msg; [|apply returns_ret].
      apply (returns_eventually _ _ _ 3 _ (fun fuel => many1_unfold _ fuel _)).
      apply returns_bind_Raise, Ho.
    + destruct Ho as [Ho _]. congruence.
  - destruct (Hmany context') as (vs' & rest' & Hrun' & Hit' & msg & Hmsg).
    assert (E : Ok (VList (v :: vs')) rest' = Ok (VList (v :: vs)) rest).
    { apply (returns_functional (many p) context); [|exact Hrun].
      apply many_iterates with rest'.
      - econstructor; [exact Hv | exact (Hclass _ _ _ Hv) | exact Hit'].
      - eapply or_ParserError; [exact Hmsg | apply returns_ret]. }
    injection E as <- <-.
    apply or_Ok.
    apply (returns_eventually _ _ _ 3 _ (fun fuel => many1_unfold _ fuel _)).
    eapply returns_bind_Ok; [exact Hv|].
    eapply returns_bind_Ok; [exact Hrun'|]. apply returns_ret.
Qed.

Lemma many_is_many1_or_nothing_witness :
  exists o,
    returns (many pop) "ab" o /\ returns (many1 pop <|> ret (VList [])) "ab" o.
Proof.
  apply (many_is_many1_or_nothing pop).
  - apply pop_halts.
  - apply pop_raises_ParserError.
  - apply pop_consumes.
  - apply pop_value_is_no_class.
Defined.

(** The scenarios of the grammar: multiplication binds tighter than
    addition on either side, and parentheses group. *)
Theorem expr_precedence :
  returns expr "1+2" (Ok (VInt 3) "") /\
  returns expr "2*3+4" (Ok (VInt 10) "") /\
  returns expr "2+3*4" (Ok (VInt 14) "") /\
  returns expr "(2+3)*4" (Ok (VInt 20) "").
Proof.
  split; [|split; [|split]]; run_with 20; apply expr_monotone.
Qed.

(** Subtraction groups to the right as division does: ["10-2-5"] is
    10-(2-5), which is 13. *)
Theorem expr_subtraction_right_associative :
  returns expr "10-2-5" (Ok (VInt 13) "") /\
  returns expr "2-5" (Ok (VInt (-3)) "").
Proof.
  split; run_with 20; apply expr_monotone.
Qed.

(** ** Single characters and literal texts *)

Lemma prefix_drop_while pr s : (prefix_while pr s ++ drop_while pr s)%string = s.
Proof.
  induction s as [|c s IH]; simpl; [reflexivity|].
  destruct (pr _); simpl; [now rewrite IH | reflexivity].
Qed.

Lemma drop_while_stops pr s : starts_with pr (drop_while pr s) = false.
Proof.
  induction s as [|c s IH]; simpl; [reflexivity|].
  destruct (pr _) eqn:E; [exact IH | simpl; exact E].
Qed.

(** X1: [sat(p)] succeeds exactly on an input whose first character
    satisfies [p]; it returns that character and consumes it alone.  On
    every other input it raises [ParserError]. *)
Theorem sat_one_character pr context :
  (forall v rest,
     returns (sat pr) context (Ok v rest) <->
     exists c, context = String c rest /\ v = VStr (String c "") /\ pr v = true) /\
  (starts_with pr context = false ->
     exists msg, returns (sat pr) context (Raise (ParserError msg))).
Proof.
  pose proof (sat_returns pr context) as H. split.
  - intros v rest. split.
    + intros H'. pose proof (returns_functional _ _ _ _ H H') as E.
      destruct context as [|c context]; [discriminate|].
      destruct (pr (VStr (String c ""))) eqn:Ec; [|discriminate].
      injection E as <- <-. exists c. repeat split. exact Ec.
    + intros (c & -> & -> & Ec). rewrite Ec in H. exact H.
  - intros E. destruct context as [|c context]; simpl in E.
    + eexists. exact H.
    + rewrite E in H. eexists. exact H.
Qed.

Lemma equals_char ch c :
  Py.equals (String ch "") (VStr (String c "")) = Ascii.eqb c ch.
Proof. simpl. destruct (Ascii.eqb c ch); reflexivity. Qed.

Lemma string_chars_returns s : forall chars context,
  returns (string_chars chars s) context
    match match_front chars context with
    | inl rest => Ok (VStr s) rest
    | inr msg => Raise (ParserError msg)
    end.
Proof.
  induction chars as [|ch chars IH]; intros context; simpl.
  - apply returns_ret.
  - pose proof (sat_returns (Py.equals (String ch "")) context) as H.
    destruct context as [|c context].
    + apply returns_bind_Raise. exact H.
    + rewrite equals_char in H. destruct (Ascii.eqb c ch).
      * eapply returns_bind_Ok; [exact H | apply IH].
      * apply returns_bind_Raise. exact H.
Qed.

Lemma string_returns s context :
  returns (string s) context
    match match_front s context with
    | inl rest => Ok (VStr s) rest
    | inr msg => Raise (ParserError msg)
    end.
Proof.
  apply (returns_eventually _ _ _ (S (String.length s)) _
           (fun fuel => string_unfold s fuel context)).
  apply string_chars_returns.
Qed.

Lemma match_front_append s rest : match_front s (s ++ rest)%string = inl rest.
Proof.
  induction s as [|ch s IH]; simpl; [reflexivity|].
  now rewrite Ascii.eqb_refl.
Qed.

Lemma match_front_inl s : forall context rest,
  match_front s context = inl rest -> context = (s ++ rest)%string.
Proof.
  induction s as [|ch s IH]; intros context rest H; simpl in *.
  - now injection H.
  - destruct context as [|c context]; [discriminate|].
    destruct (Ascii.eqb c ch) eqn:E; [|discriminate].
    apply Ascii.eqb_eq in E. subst c. f_equal. now apply IH.
Qed.

(** X7: [string(s)] succeeds exactly on the inputs that start with [s]; it
    returns [s] and leaves what follows [s].  It raises nothing but
    [ParserError], and it returns on every input. *)
Theorem string_matches_prefix s :
  (forall rest, returns (string s) (s ++ rest)%string (Ok (VStr s) rest)) /\
  (forall context v rest,
     returns (string s) context (Ok v rest) ->
     v = VStr s /\ context = (s ++ rest)%string) /\
  (forall context e,
     returns (string s) context (Raise e) -> is_ParserError e = true) /\
  (forall context, exists o, returns (string s) context o).
Proof.
  split; [|split; [|split]].
  - intros rest. pose proof (string_returns s (s ++ rest)%string) as H.
    now rewrite match_front_append in H.
  - intros context v rest H.
    pose proof (returns_functional _ _ _ _ H (string_returns s context)) as E.
    destruct (match_front s context) as [rest'|msg] eqn:M; [|discriminate].
    injection E as -> ->. split; [reflexivity | now apply match_front_inl].
  - intros context e H.
    pose proof (returns_functional _ _ _ _ H (string_returns s context)) as E.
    destruct (match_front s context); [discriminate|]. injection E as ->. reflexivity.
  - intros context. eexists. apply string_returns.
Qed.

(** ** Repetition and whitespace *)

Lemma or_ret_never_ParserError p v fuel context msg :
  (p <|> ret v) fuel context <> Raise (ParserError msg).
Proof.
  unfold __or__. destruct (p fuel context) as [a c | e |]; try discriminate.
  destruct e; discriminate.
Qed.

Lemma many_loop_never_ParserError p msg a : forall result fuel context,
  reduce a (ITree.iter (parse_many_step p) result) fuel context
  <> Raise (ParserError msg).
Proof.
  induction a as [a IH] using lt_wf_ind. intros result fuel context.
  destruct a as [|[|a]].
  - discriminate.
  - cbn [reduce]. cbn. unfold bind.
    pose proof (or_ret_never_ParserError p VClass_ParserError fuel context msg) as H.
    destruct ((p <|> ret VClass_ParserError) fuel context) as [x c | e |];
      [discriminate | congruence | discriminate].
  - rewrite reduce_many_turn.
    pose proof (or_ret_never_ParserError p VClass_ParserError fuel context msg) as H.
    destruct ((p <|> ret VClass_ParserError) fuel context) as [x c | e |];
      [| congruence | discriminate].
    destruct (is_ParserError_class x); [discriminate | apply IH; lia].
Qed.

Lemma many_never_ParserError_at p fuel context msg :
  many p fuel context <> Raise (ParserError msg).
Proof. unfold many, do. apply many_loop_never_ParserError. Qed.

(** X4: whatever the parser [p], [many(p)] never raises [ParserError], and
    neither does [space]: an alternative written after [many(p)] is never
    run. *)
Theorem many_never_raises_ParserError :
  (forall (p : Parser) fuel context msg,
     many p fuel context <> Raise (ParserError msg)) /\
  (forall fuel context msg, space fuel context <> Raise (ParserError msg)) /\
  (forall (p q : Parser) fuel context,
     (many p <|> q) fuel context = many p fuel context).
Proof.
  split; [|split].
  - apply many_never_ParserError_at.
  - intros fuel context msg. apply many_never_ParserError_at.
  - intros p q fuel context. unfold __or__.
    pose proof (many_never_ParserError_at p fuel context) as H.
    destruct (many p fuel context) as [a c | e |]; try reflexivity.
    destruct e; try reflexivity. now destruct (H m).
Qed.




Lemma iterates_sat pr context :
  iterates (sat pr) context (chars_of (prefix_while pr context)) (drop_while pr context).
Proof.
  induction context as [|c context IH]; simpl; [constructor|].
  destruct (pr (VStr (String c ""))) eqn:E; simpl; [|constructor].
  apply iterates_cons with context; [|reflexivity | exact IH].
  pose proof (sat_returns pr (String c context)) as H. cbn in H. now rewrite E in H.
Qed.

Lemma sat_fails_after_prefix pr context :
  exists msg, returns (sat pr) (drop_while pr context) (Raise (ParserError msg)).
Proof.
  pose proof (sat_returns pr (drop_while pr context)) as H.
  pose proof (drop_while_stops pr context) as E.
  destruct (drop_while pr context) as [|c rest]; simpl in E.
  - eexists. exact H.
  - cbn in H. rewrite E in H. eexists. exact H.
Qed.

Lemma many_sat_returns pr context :
  returns (many (sat pr)) context
    (Ok (VList (chars_of (prefix_while pr context))) (drop_while pr context)).
Proof.
  apply many_iterates with (drop_while pr context); [apply iterates_sat|].
  destruct (sat_fails_after_prefix pr context) as [msg H].
  eapply or_ParserError; [exact H | apply returns_ret].
Qed.

(** X5: given enough recursion depth for the input, [many(sat(p))] returns
    the characters of the longest prefix whose characters all satisfy [p],
    one by one, and leaves the input after that prefix, which does not
    start with such a character.  So does [space] with the whitespace at the
    front of the input: what it leaves does not start with whitespace. *)
Theorem many_sat_longest_prefix pr context :
  returns (many (sat pr)) context
    (Ok (VList (chars_of (prefix_while pr context))) (drop_while pr context)) /\
  context = (prefix_while pr context ++ drop_while pr context)%string /\
  starts_with pr (drop_while pr context) = false /\
  returns space context
    (Ok (VList (chars_of (prefix_while is_whitespace context)))
        (drop_while is_whitespace context)).
Proof.
  split; [apply many_sat_returns|]. split; [symmetry; apply prefix_drop_while|].
  split; [apply drop_while_stops|]. exact (many_sat_returns is_whitespace context).
Qed.

Lemma token_returns_Ok p context v mid :
  returns p context (Ok v mid) ->
  returns (token p) context (Ok v (drop_while is_whitespace mid)).
Proof.
  intros H.
  apply (returns_eventually _ _ _ 3 _ (fun fuel => token_unfold p fuel context)).
  eapply returns_bind_Ok; [exact H|].
  eapply returns_bind_Ok; [exact (many_sat_returns is_whitespace mid)|].
  apply returns_ret.
Qed.

Lemma token_returns_Raise p context e :
  returns p context (Raise e) -> returns (token p) context (Raise e).
Proof.
  intros H.
  apply (returns_eventually _ _ _ 3 _ (fun fuel => token_unfold p fuel context)).
  apply returns_bind_Raise, H.
Qed.

(** X8: [token(p)] returns the value of [p] and leaves what [p] left
    without the whitespace at its front, so the input after a token never
    starts with whitespace; it raises what [p] raises.  In particular
    [symb(s)] on [s] followed by anything returns [s] and skips the
    whitespace after it. *)
Theorem token_skips_trailing_whitespace (p : Parser) context :
  (forall v mid,
     returns p context (Ok v mid) ->
     returns (token p) context (Ok v (drop_while is_whitespace mid)) /\
     starts_with is_whitespace (drop_while is_whitespace mid) = false) /\
  (forall e, returns p context (Raise e) -> returns (token p) context (Raise e)) /\
  (forall s rest,
     returns (symb s) (s ++ rest)%string (Ok (VStr s) (drop_while is_whitespace rest))).
Proof.
  split; [|split].
  - intros v mid H. split; [now apply token_returns_Ok | apply drop_while_stops].
  - intros e. apply token_returns_Raise.
  - intros s rest. apply token_returns_Ok.
    pose proof (string_returns s (s ++ rest)%string) as H.
    now rewrite match_front_append in H.
Qed.

(** ** Numeric literals *)

Lemma join_chars_of s : Py.join_list (chars_of s) = Val s.
Proof. induction s as [|c s IH]; simpl; [reflexivity | now rewrite IH]. Qed.

Lemma many1_sat_returns pr context :
  returns (many1 (sat pr)) context
    (if starts_with pr context
     then Ok (VList (chars_of (prefix_while pr context))) (drop_while pr context)
     else Raise (ParserError
                   match context with
                   | "" => Msg "unexpected EOF"
                   | String c _ => Unexpected (VStr (String c ""))
                   end%string)).
Proof.
  apply (returns_eventually _ _ _ 3 _ (fun fuel => many1_unfold _ fuel context)).
  pose proof (sat_returns pr context) as H.
  destruct context as [|c context]; cbn in *.
  - apply returns_bind_Raise, H.
  - destruct (pr (VStr (String c ""))).
    + eapply returns_bind_Ok; [exact H|].
      eapply returns_bind_Ok; [apply many_sat_returns|]. apply returns_ret.
    + apply returns_bind_Raise, H.
Qed.

Lemma returns_of_result r context :
  returns (of_result r) context
    match r with
    | Val v => Ok v context
    | Exc e => Raise e
    end.
Proof.
  split; [destruct r; discriminate|]. exists 0. intros fuel _. destruct r; reflexivity.
Qed.

(** What [digits] does. *)
Lemma digits_returns context :
  returns digits context
    (if starts_with is_digit_or_dot context
     then match Py.eval (prefix_while is_digit_or_dot context) with
          | Val v =>
              Ok v (drop_while is_whitespace (drop_while is_digit_or_dot context))
          | Exc e => Raise e
          end
     else Raise (ParserError
                   match context with
                   | "" => Msg "unexpected EOF"
                   | String c _ => Unexpected (VStr (String c ""))
                   end%string)).
Proof.
  apply (returns_eventually _ _ _ 0 _ (fun fuel _ => digits_bind fuel context)).
  pose proof (many1_sat_returns is_digit_or_dot context) as H.
  fold is_digit_or_dot.
  destruct (starts_with is_digit_or_dot context).
  - eapply returns_bind_Ok; [apply token_returns_Ok, H|].
    cbn [Py.join]. rewrite join_chars_of. cbn [result_bind].
    apply returns_of_result.
  - apply returns_bind_Raise, token_returns_Raise, H.
Qed.

(** X10: [digits] reads the longest run of digits and decimal points at the
    front of the input, skips the whitespace after it and hands the run to
    [eval]: it returns what [eval] returns and raises what [eval] raises.
    When the input starts with no such character it raises [ParserError]
    about that character, or about the end of the input.  The run, the
    whitespace skipped and the remaining input make up the input. *)
Theorem digits_reads_longest_run context :
  returns digits context
    (if starts_with is_digit_or_dot context
     then match Py.eval (prefix_while is_digit_or_dot context) with
          | Val v =>
              Ok v (drop_while is_whitespace (drop_while is_digit_or_dot context))
          | Exc e => Raise e
          end
     else Raise (ParserError
                   match context with
                   | "" => Msg "unexpected EOF"
                   | String c _ => Unexpected (VStr (String c ""))
                   end%string)) /\
  context =
    (prefix_while is_digit_or_dot context
     ++ prefix_while is_whitespace (drop_while is_digit_or_dot context)
     ++ drop_while is_whitespace (drop_while is_digit_or_dot context))%string.
Proof.
  split; [apply digits_returns|].
  now rewrite !prefix_drop_while.
Qed.

(** ** Where the grammar reports a parse failure *)

Lemma or_Raise_other p q context e :
  returns p context (Raise e) -> is_ParserError e = false ->
  returns (p <|> q) context (Raise e).
Proof.
  intros [_ [n Hn]] He. split; [discriminate|]. exists n. intros fuel Hfuel.
  unfold __or__. rewrite (Hn fuel Hfuel). destruct e; [discriminate | reflexivity ..].
Qed.

Lemma returns_next p q context o :
  (forall fuel, p (S fuel) context = q fuel context) ->
  returns p context o <-> returns q context o.
Proof.
  intros H. split; intros [Ho [n Hn]]; (split; [exact Ho|]).
  - exists n. intros fuel Hfuel. rewrite <- H. apply Hn. lia.
  - exists (S n). intros fuel Hfuel. destruct fuel as [|fuel]; [lia|].
    rewrite H. apply Hn. lia.
Qed.

(** The shape of [expr] and [term]: an operator applied to a first operand
    [T], or else [T] alone. *)
Lemma alternative_raises p_op T E context e :
  returns T context (Raise e) ->
  returns (operator p_op T E <|> T) context (Raise e).
Proof.
  intros H.
  assert (Hop : returns (operator p_op T E) context (Raise e)).
  { apply (returns_eventually _ _ _ 5 _ (fun fuel => operator_unfold _ _ _ fuel context)).
    apply returns_bind_Raise, H. }
  destruct (is_ParserError e) eqn:He.
  - destruct e; try discriminate. eapply or_ParserError; [exact Hop | exact H].
  - apply or_Raise_other; assumption.
Qed.

Lemma alternative_no_ParserError X T context v rest msg :
  returns T context (Ok v rest) ->
  ~ returns (X <|> T) context (Raise (ParserError msg)).
Proof.
  intros [_ [n Hn]] [_ [m Hm]].
  specialize (Hn (Nat.max n m) (Nat.le_max_l _ _)).
  specialize (Hm (Nat.max n m) (Nat.le_max_r _ _)).
  unfold __or__ in Hm. destruct (X _ _) as [a c | e |]; try discriminate.
  destruct e; try discriminate. congruence.
Qed.

Lemma alternative_ParserError_iff p_op T E context msg :
  halts T context ->
  returns (operator p_op T E <|> T) context (Raise (ParserError msg)) <->
  returns T context (Raise (ParserError msg)).
Proof.
  intros [o Ho]. split; [|apply alternative_raises].
  intros H. destruct o as [v rest | e |].
  - destruct (alternative_no_ParserError _ _ _ _ _ _ Ho H).
  - pose proof (alternative_raises p_op T E context e Ho) as H'.
    pose proof (returns_functional _ _ _ _ H H') as E'. injection E' as <-. exact Ho.
  - destruct Ho as [Ho _]. congruence.
Qed.

Lemma eval_raises_SyntaxError text e : Py.eval text = Exc e -> e = SyntaxError.
Proof.
  unfold Py.eval.
  repeat match goal with
         | |- context [if ?b then _ else _] => destruct b
         | |- context [match ?n with O => _ | S _ => _ end] => destruct n
         end; intros H; try discriminate; now injection H.
Qed.

(** X11: [expr] raises [ParserError] exactly when [factor] does, on the
    same input and with the same message: a parse failure is always about
    the front of the input.  On an input that starts with a digit or a
    decimal point [expr] never raises [ParserError]: it returns a value,
    maybe with input left over, or raises another exception. *)
Theorem expr_parse_failure_is_at_the_front :
  (forall context msg,
     returns expr context (Raise (ParserError msg)) <->
     returns factor context (Raise (ParserError msg))) /\
  (forall context msg,
     starts_with is_digit_or_dot context = true ->
     ~ returns expr context (Raise (ParserError msg))).
Proof.
  assert (Hiff : forall context msg,
     returns expr context (Raise (ParserError msg)) <->
     returns factor context (Raise (ParserError msg))).
  { intros context msg.
    destruct (productions_halt (S (String.length context)) context (le_n _))
      as (Hf & Ht & _).
    rewrite (returns_next _ _ _ _ (fun fuel => expr_unfold fuel context)).
    unfold addop. rewrite (alternative_ParserError_iff _ _ _ _ _ Ht).
    rewrite (returns_next _ _ _ _ (fun fuel => term_unfold fuel context)).
    unfold mulop. apply (alternative_ParserError_iff _ _ _ _ _ Hf). }
  split; [exact Hiff|].
  intros context msg Hstart H. apply Hiff in H.
  apply (returns_next _ _ _ _ (fun fuel => factor_unfold fuel context)) in H.
  pose proof (digits_returns context) as Hd. rewrite Hstart in Hd.
  destruct (Py.eval _) as [v|e] eqn:Ev.
  - pose proof (or_Ok _ (parse_parenthesis expr) _ _ _ Hd) as H'.
    discriminate (returns_functional _ _ _ _ H H').
  - apply eval_raises_SyntaxError in Ev. subst e.
    pose proof (or_Raise_other _ (parse_parenthesis expr) _ _ Hd eq_refl) as H'.
    discriminate (returns_functional _ _ _ _ H H').
Qed.

(** ** The values the grammar computes *)

Lemma or_Ok_inv p q fuel context v rest :
  (p <|> q) fuel context = Ok v rest ->
  p fuel context = Ok v rest \/ q fuel context = Ok v rest.
Proof.
  unfold __or__. destruct (p fuel context) as [a c | e |]; try discriminate.
  - intros H. left. exact H.
  - destruct e; try discriminate. intros H. right. exact H.
Qed.

Lemma operator_Ok p_op p_n1 p_n2 fuel context v rest :
  operator p_op p_n1 p_n2 fuel context = Ok v rest ->
  exists n1 c1 op c2 n2,
    p_n1 fuel context = Ok n1 c1 /\ p_op fuel c1 = Ok op c2 /\
    p_n2 fuel c2 = Ok n2 rest /\ Py.call2 op n1 n2 = Val v.
Proof.
  intros H. unfold operator, do in H.
  destruct fuel as [|a]; [discriminate|].
  rewrite reduce_yield in H. apply bind_Ok in H as (n1 & c1 & Hn1 & H).
  destruct a as [|a]; [discriminate|].
  rewrite reduce_yield in H. apply bind_Ok in H as (op & c2 & Hc2 & H).
  destruct a as [|a]; [discriminate|].
  rewrite reduce_yield in H. apply bind_Ok in H as (n2 & c3 & Hc3 & H).
  destruct a as [|a]; [discriminate|]. simpl in H.
  destruct (Py.call2 op n1 n2) as [r|e] eqn:E; simpl in H; [|discriminate].
  injection H as <- <-. exists n1, c1, op, c2, n2. auto.
Qed.

Lemma operator_symbol_Ok s f fuel context v rest :
  do (fun _ => yield (symb s) ;; Ret (ret (VLambda f))) fuel context = Ok v rest ->
  v = VLambda f.
Proof.
  intros H. unfold do in H. destruct fuel as [|a]; [discriminate|].
  rewrite reduce_yield in H. apply bind_Ok in H as (x & c & _ & H).
  destruct a as [|a]; [discriminate|]. simpl in H. now injection H.
Qed.

Lemma parse_parenthesis_Ok e fuel context v rest :
  parse_parenthesis e fuel context = Ok v rest ->
  exists c1 c2, e fuel c1 = Ok v c2.
Proof.
  intros H. unfold parse_parenthesis, do in H.
  destruct fuel as [|a]; [discriminate|].
  rewrite reduce_yield in H. apply bind_Ok in H as (x & c1 & _ & H).
  destruct a as [|a]; [discriminate|].
  rewrite reduce_yield in H. apply bind_Ok in H as (n & c2 & Hn & H).
  destruct a as [|a]; [discriminate|].
  rewrite reduce_yield in H. apply bind_Ok in H as (y & c3 & _ & H).
  destruct a as [|a]; [discriminate|]. simpl in H.
  injection H as <- _. exists c1, c2. exact Hn.
Qed.

Lemma digits_Ok fuel context v rest :
  digits fuel context = Ok v rest -> exists text, Py.eval text = Val v.
Proof.
  unfold digits. destruct (token _ fuel context) as [x c | e |]; try discriminate.
  destruct (Py.join x) as [text|e]; simpl; [|discriminate].
  destruct (Py.eval text) as [w|e] eqn:E; [|discriminate].
  intros H. injection H as <- _. exists text. exact E.
Qed.

Lemma eval_number text v : Py.eval text = Val v -> is_number v = true.
Proof.
  unfold Py.eval.
  repeat match goal with
         | |- context [if ?b then _ else _] => destruct b
         | |- context [match ?n with O => _ | S _ => _ end] => destruct n
         end; intros H; try discriminate; injection H as <-; reflexivity.
Qed.

Lemma float_op_number op a b v : Py.float_op op a b = Val v -> is_number v = true.
Proof.
  unfold Py.float_op. destruct (Py.coerce a b) as [[xy|e]|]; simpl; try discriminate.
  destruct (op _ _); simpl; [|discriminate]. intros H. injection H as <-. reflexivity.
Qed.

Lemma apply_lambda_number f a b v :
  is_number a = true -> is_number b = true ->
  Py.apply_lambda f a b = Val v -> is_number v = true.
Proof.
  intros Ha Hb.
  destruct f, a; try discriminate; destruct b; try discriminate; simpl;
    try (apply float_op_number);
    try (intros H; injection H as <-; reflexivity).
  unfold Py.int_truediv. destruct (_ =? _)%Z; simpl; [discriminate|].
  destruct (Py.finite_or_overflow _); simpl; [|discriminate].
  intros H; injection H as <-; reflexivity.
Qed.

Lemma parse_production_number n : forall which context v rest,
  parse_production n which context = Ok v rest -> is_number v = true.
Proof.
  induction n as [|n IH]; intros which context v rest H; [discriminate|].
  rewrite parse_production_S in H.
  assert (Hop : forall (p_op T E : Parser) f g s s',
    p_op = (do (fun _ => yield (symb s) ;; Ret (ret (VLambda f)))
            <|> do (fun _ => yield (symb s') ;; Ret (ret (VLambda g)))) ->
    (forall k c w r, T k c = Ok w r -> is_number w = true) ->
    (forall k c w r, E k c = Ok w r -> is_number w = true) ->
    operator p_op T E n context = Ok v rest -> is_number v = true).
  { intros p_op T E f g s s' -> HT HE Ho.
    apply operator_Ok in Ho as (n1 & c1 & op & c2 & n2 & H1 & H2 & H3 & H4).
    apply HT in H1. apply HE in H3.
    apply or_Ok_inv in H2 as [H2|H2]; apply operator_symbol_Ok in H2; subst op;
      exact (apply_lambda_number _ _ _ _ H1 H3 H4). }
  destruct which; apply or_Ok_inv in H as [H|H].
  - revert H. eapply Hop; [reflexivity | intros k; apply IH ..].
  - eapply IH, H.
  - revert H. eapply Hop; [reflexivity | intros k; apply IH ..].
  - eapply IH, H.
  - apply digits_Ok in H as [text H]. eapply eval_number, H.
  - apply parse_parenthesis_Ok in H as (c1 & c2 & H). eapply IH, H.
Qed.

(** X13: a value [expr] returns is an integer, a float or [Ellipsis]:
    never a string, a list, a function or [None]. *)
Theorem expr_returns_numbers fuel context v rest :
  expr fuel context = Ok v rest -> is_number v = true.
Proof. apply parse_production_number. Qed.

Lemma expr_returns_numbers_witness : is_number (VFloat float_25) = true.
Proof.
  apply (expr_returns_numbers 14 "10/2/5" (VFloat float_25) "").
  vm_compute. reflexivity.
Defined.

(** ** Laws of alternation *)

(** X9: [|] is associative; a parser that raises [ParserError] is its left
    identity, and its right identity on the runs of [p] that raise no
    [ParserError]; [Parser.ret] is its left zero.  The choice is committed:
    once the first alternative has succeeded the second is never run, even
    when what is bound after the alternation fails. *)
Theorem alternation_laws :
  (forall p q r fuel context,
     ((p <|> q) <|> r) fuel context = (p <|> (q <|> r)) fuel context) /\
  (forall msg p fuel context,
     (failing (ParserError msg) <|> p) fuel context = p fuel context) /\
  (forall p msg fuel context,
     (forall m, p fuel context <> Raise (ParserError m)) ->
     (p <|> failing (ParserError msg)) fuel context = p fuel context) /\
  (forall v q fuel context, (ret v <|> q) fuel context = ret v fuel context) /\
  (forall p q f fuel context v rest,
     p fuel context = Ok v rest ->
     bind (p <|> q) f fuel context = bind p f fuel context).
Proof.
  split; [|split; [|split; [|split]]].
  - intros p q r fuel context. unfold __or__.
    destruct (p fuel context) as [a c | e |]; try reflexivity.
    destruct e; reflexivity.
  - reflexivity.
  - intros p msg fuel context H. unfold __or__.
    destruct (p fuel context) as [a c | e |]; try reflexivity.
    destruct e; try reflexivity. now destruct (H m).
  - reflexivity.
  - intros p q f fuel context v rest H. unfold bind, __or__. now rewrite H.
Qed.

(** ** The read-eval-print loop *)

Lemma reply_answer line o :
  returns expr line o -> exists out, answer o = Some out /\ reply line out.
Proof.
  intros H. destruct o as [v ctx | e |]; simpl.
  - destruct (String.eqb ctx "") eqn:E.
    + apply String.eqb_eq in E. subst ctx.
      destruct (printable v) eqn:Hv; eexists; (split; [reflexivity|]).
      * now apply reply_value.
      * now apply reply_unprintable with v.
    + apply String.eqb_neq in E. eexists. split; [reflexivity|].
      now apply reply_extra_input with v.
  - eexists. split; [reflexivity | now apply reply_exception].
  - destruct H as [H _]. congruence.
Qed.

(** X12: no line can end or stall the loop, given enough recursion depth
    for every line.  [main] answers every line before the first empty one
    with exactly one print: the value when [expr] consumed the whole line
    and the value can be written, the [ValueError] of [print] when it cannot
    (an integer of more than 4300 digits), the remaining input when [expr]
    left some, the exception when [expr] raised one.  It ends at the first
    empty line, or with the [EOFError] of [input] when the input ends before
    one. *)
Theorem main_answers_every_line stdin :
  exists answers,
    Forall2 reply (lines_read stdin) answers /\
    exists depth, forall fuel, depth <= fuel ->
      main fuel stdin = (with_prompts answers, ending_of stdin).
Proof.
  induction stdin as [|line stdin (answers & HF & d & Hd)]; simpl.
  - exists []. split; [constructor|]. exists 0. reflexivity.
  - destruct (String.eqb line "").
    + exists []. split; [constructor|]. exists 0. reflexivity.
    + destruct (productions_halt (S (String.length line)) line (le_n _))
        as (_ & _ & o & Ho).
      destruct (reply_answer line o Ho) as (out & Hout & Hreply).
      exists (out :: answers). split; [now constructor|].
      destruct Ho as [_ [n Hn]]. exists (Nat.max d n). intros fuel Hfuel.
      rewrite Hn by lia. rewrite Hout, Hd by lia. reflexivity.
Qed.

(** ** One or more *)

Lemma many1_inversion p fuel context :
  match many1 p fuel context with
  | Ok v rest =>
      exists x l mid, v = VList (x :: l) /\ p fuel context = Ok x mid /\
                      many p fuel mid = Ok (VList l) rest
  | Raise (ParserError msg) => p fuel context = Raise (ParserError msg)
  | _ => True
  end.
Proof.
  unfold many1, do. destruct fuel as [|a]; [exact I|].
  rewrite reduce_yield. unfold bind at 1.
  destruct (p (S a) context) as [x mid | e |] eqn:Hp;
    [| destruct e; [reflexivity | exact I ..] | exact I].
  destruct a as [|a]; [exact I|].
  rewrite reduce_yield. unfold bind at 1.
  pose proof (many_never_ParserError_at p (S (S a)) mid) as Hnever.
  destruct (many p (S (S a)) mid) as [xs rest | e |] eqn:Hm;
    [| destruct e; [now destruct (Hnever m) | exact I ..] | exact I].
  destruct a as [|a]; [exact I|].
  destruct xs; simpl; try exact I.
  exists x, l, mid. auto.
Qed.

(** X14: [many1(p)] is one or more: a list it returns is never empty, its
    head is what [p] returned on the input, and its tail is what [many(p)]
    returned after that.  A [ParserError] it raises is the one [p] raised
    on the input: a later failure of [p] only ends the list. *)
Theorem many1_one_or_more (p : Parser) fuel context :
  (forall v rest,
     many1 p fuel context = Ok v rest ->
     exists x l mid, v = VList (x :: l) /\ p fuel context = Ok x mid /\
                     many p fuel mid = Ok (VList l) rest) /\
  (forall msg,
     many1 p fuel context = Raise (ParserError msg) ->
     p fuel context = Raise (ParserError msg)).
Proof.
  pose proof (many1_inversion p fuel context) as H. split.
  - intros v rest E. now rewrite E in H.
  - intros msg E. now rewrite E in H.
Qed.

(** ** Binary operators *)

Lemma operator_symbol_returns s f rest :
  returns (do (fun _ => yield (symb s) ;; Ret (ret (VLambda f)))) (s ++ rest)%string
    (Ok (VLambda f) (drop_while is_whitespace rest)).
Proof.
  apply (returns_eventually _ _ _ 2 _
           (fun fuel => operator_symbol_unfold s f fuel (s ++ rest)%string)).
  pose proof (string_returns s (s ++ rest)%string) as H.
  rewrite match_front_append in H.
  eapply returns_bind_Ok; [apply token_returns_Ok; exact H | apply returns_ret].
Qed.

Lemma operator_symbol_fails s f context msg :
  match_front s context = inr msg ->
  returns (do (fun _ => yield (symb s) ;; Ret (ret (VLambda f)))) context
    (Raise (ParserError msg)).
Proof.
  intros M.
  apply (returns_eventually _ _ _ 2 _
           (fun fuel => operator_symbol_unfold s f fuel context)).
  apply returns_bind_Raise, token_returns_Raise.
  pose proof (string_returns s context) as H. now rewrite M in H.
Qed.

Lemma operator_returns p_op p_n1 p_n2 context n1 c1 op c2 n2 rest :
  returns p_n1 context (Ok n1 c1) ->
  returns p_op c1 (Ok op c2) ->
  returns p_n2 c2 (Ok n2 rest) ->
  returns (operator p_op p_n1 p_n2) context
    match Py.call2 op n1 n2 with
    | Val v => Ok v rest
    | Exc e => Raise e
    end.
Proof.
  intros H1 Hop H2.
  apply (returns_eventually _ _ _ 5 _ (fun fuel => operator_unfold _ _ _ fuel context)).
  eapply returns_bind_Ok; [exact H1|].
  eapply returns_bind_Ok; [exact Hop|].
  eapply returns_bind_Ok; [exact H2|].
  apply returns_of_result.
Qed.

Lemma addop_symbol_returns c f rest :
  operator_function c = Some f -> (f = Lam_add \/ f = Lam_sub) ->
  returns (do (fun _ => yield (symb "+") ;; Ret (ret (VLambda Lam_add)))
           <|> do (fun _ => yield (symb "-") ;; Ret (ret (VLambda Lam_sub))))
    (String c rest) (Ok (VLambda f) (drop_while is_whitespace rest)).
Proof.
  unfold operator_function. intros Hc Hf.
  destruct (Ascii.eqb c "+") eqn:E1.
  - injection Hc as <-. apply Ascii.eqb_eq in E1. subst c.
    apply or_Ok. exact (operator_symbol_returns "+" Lam_add rest).
  - destruct (Ascii.eqb c "-") eqn:E2.
    + injection Hc as <-. apply Ascii.eqb_eq in E2. subst c.
      eapply or_ParserError.
      * apply operator_symbol_fails. reflexivity.
      * exact (operator_symbol_returns "-" Lam_sub rest).
    + destruct (Ascii.eqb c "*"); [injection Hc as <-; destruct Hf; discriminate|].
      destruct (Ascii.eqb c "/"); [injection Hc as <-; destruct Hf; discriminate|].
      discriminate.
Qed.

Lemma mulop_symbol_returns c f rest :
  operator_function c = Some f -> (f = Lam_mul \/ f = Lam_div) ->
  returns (do (fun _ => yield (symb "*") ;; Ret (ret (VLambda Lam_mul)))
           <|> do (fun _ => yield (symb "/") ;; Ret (ret (VLambda Lam_div))))
    (String c rest) (Ok (VLambda f) (drop_while is_whitespace rest)).
Proof.
  unfold operator_function. intros Hc Hf.
  destruct (Ascii.eqb c "+"); [injection Hc as <-; destruct Hf; discriminate|].
  destruct (Ascii.eqb c "-"); [injection Hc as <-; destruct Hf; discriminate|].
  destruct (Ascii.eqb c "*") eqn:E1.
  - injection Hc as <-. apply Ascii.eqb_eq in E1. subst c.
    apply or_Ok. exact (operator_symbol_returns "*" Lam_mul rest).
  - destruct (Ascii.eqb c "/") eqn:E2; [|discriminate].
    injection Hc as <-. apply Ascii.eqb_eq in E2. subst c.
    eapply or_ParserError.
    + apply operator_symbol_fails. reflexivity.
    + exact (operator_symbol_returns "/" Lam_div rest).
Qed.

(** X15: [addop] and [mulop] apply the operator they read to numbers.
    When the first operand parses to a number (an [int], a [float] or
    [Ellipsis]) and leaves an operator character of the kind ([+] or [-]
    for [addop], [*] or [/] for [mulop]), and the second operand parses to
    a number on what follows the operator and its whitespace, the parser
    returns the result of the Python operation on the two values, left
    operand first, with the input the second operand left; when the
    operation raises (division by zero, an [Ellipsis] operand, overflow),
    the parser raises that exception. *)
Theorem addop_mulop_apply_the_operator
    (pn1 pn2 : Parser) context a c f after b rest :
  returns pn1 context (Ok a (String c after)) ->
  is_number a = true ->
  operator_function c = Some f ->
  returns pn2 (drop_while is_whitespace after) (Ok b rest) ->
  is_number b = true ->
  returns (builder_of f pn1 pn2) context
    match Py.apply_lambda f a b with
    | Val v => Ok v rest
    | Exc e => Raise e
    end.
Proof.
  intros H1 _ Hc H2 _.
  destruct f; cbn [builder_of].
  - exact (operator_returns _ _ _ _ _ _ _ _ _ _ H1
             (addop_symbol_returns c Lam_add after Hc (or_introl eq_refl)) H2).
  - exact (operator_returns _ _ _ _ _ _ _ _ _ _ H1
             (addop_symbol_returns c Lam_sub after Hc (or_intror eq_refl)) H2).
  - exact (operator_returns _ _ _ _ _ _ _ _ _ _ H1
             (mulop_symbol_returns c Lam_mul after Hc (or_introl eq_refl)) H2).
  - exact (operator_returns _ _ _ _ _ _ _ _ _ _ H1
             (mulop_symbol_returns c Lam_div after Hc (or_intror eq_refl)) H2).
Qed.

(** Dividing by zero: the exception of the division leaves the parse. *)
Lemma addop_mulop_apply_the_operator_witness :
  returns (mulop digits digits) "1 / 0" (Raise ZeroDivisionError).
Proof.
  apply (addop_mulop_apply_the_operator digits digits "1 / 0" (VInt 1) "/" Lam_div
           " 0" (VInt 0) "").
  - apply (returns_monotone _ 8); [apply digits_monotone | vm_compute; reflexivity
                                   | discriminate].
  - reflexivity.
  - reflexivity.
  - apply (returns_monotone _ 8); [apply digits_monotone | vm_compute; reflexivity
                                   | discriminate].
  - reflexivity.
Defined.

(** ** Every success consumes *)

(** X16: a success of [digits], [factor], [term] or [expr] consumes at
    least one character: none of them succeeds on the empty input, and what
    they leave is strictly shorter than what they were given. *)
Theorem productions_consume :
  consumes digits /\ consumes factor /\ consumes term /\ consumes expr /\
  (forall fuel v rest, expr fuel "" <> Ok v rest).
Proof.
  assert (He : consumes expr).
  { intros fuel. apply (parse_production_consumes fuel Expr fuel). }
  split; [apply digits_consumes|]. split; [apply factor_consumes|].
  split; [apply term_consumes|]. split; [exact He|].
  intros fuel v rest H. apply He in H. simpl in H. lia.
Qed.
